(** * OptiMol: property scoring, normalisation and parameter dumping

    A shallow embedding of [optim/theano_bo/generate_init.py] (the script
    that embeds a batch of molecules and writes Bayesian-optimisation
    targets) and of the utilities of [utils.py].

    Numbers.  Two models of numpy's float64 values are used.
    - [np_float]: a real number, or one of the IEEE-754 special values
      [+inf], [-inf], [nan].  Arithmetic on finite values is exact
      (rounding and overflow are left out, and the two zeros are
      identified); the special values follow the IEEE rules that numpy
      applies, in particular for a division by zero, which numpy reports
      with a warning and not with an exception.  The script is embedded
      over this model; the statements about its runs depend on which
      operations are applied to which values, not on how they round.
    - [F64]: binary64 itself, on Rocq's primitive floats, with numpy's
      order of operations.  Where rounding decides what the program
      computes, the normaliser is evaluated there; [QED_oracle], whose
      tensor holds single-precision values, is embedded over it.

    Effects.  A Python exception is a value of [exn]; a computation that
    may raise returns [py A]; the script itself runs in a state-and-error
    monad over the contents of its output directory. *)

From Stdlib Require Import Reals Lra ZArith.
From Stdlib Require PrimFloat FloatOps SpecFloat Uint63.
From stdpp Require Import base option list strings gmap.

Set Default Proof Using "Type".

(** ** Exceptions and the result type *)

Inductive exn : Type :=
  | NotImplementedError
  | ValueError (msg : string)
  | KeyError (label : Z)
  | TypeError
  | IndexError
  | ArgumentError.

Inductive py (A : Type) : Type :=
  | Ok (a : A)
  | Raise (e : exn).
Arguments Ok {A} a.
Arguments Raise {A} e.

Definition py_bind {A B : Type} (f : A → py B) (x : py A) : py B :=
  match x with
  | Ok a => f a
  | Raise e => Raise e
  end.

#[global] Instance py_ret : MRet py := @Ok.
#[global] Instance py_mbind : MBind py := @py_bind.
#[global] Instance py_fmap : FMap py :=
  λ A B f x, match x with Ok a => Ok (f a) | Raise e => Raise e end.

(** ** Floating-point values, with exact arithmetic on the finite ones *)

Module NP.
Open Scope R_scope.

Inductive np_float : Type :=
  | Fin (r : R)
  | PInf
  | NInf
  | NaN.

Definition is_finite (x : np_float) : bool :=
  match x with Fin _ => true | _ => false end.

Definition neg (x : np_float) : np_float :=
  match x with
  | Fin a => Fin (- a)
  | PInf => NInf
  | NInf => PInf
  | NaN => NaN
  end.

Definition add (x y : np_float) : np_float :=
  match x, y with
  | NaN, _ | _, NaN => NaN
  | Fin a, Fin b => Fin (a + b)
  | PInf, NInf | NInf, PInf => NaN
  | PInf, _ | _, PInf => PInf
  | NInf, _ | _, NInf => NInf
  end.

Definition sub (x y : np_float) : np_float := add x (neg y).

(** The sign of an infinite product or quotient: [inf * 0] is [nan]. *)
Definition signed_inf (positive : bool) : np_float :=
  if positive then PInf else NInf.

Definition inf_times (positive : bool) (a : R) : np_float :=
  match total_order_T a 0 with
  | inleft (left _) => signed_inf (negb positive)
  | inleft (right _) => NaN
  | inright _ => signed_inf positive
  end.

Definition mul (x y : np_float) : np_float :=
  match x, y with
  | NaN, _ | _, NaN => NaN
  | Fin a, Fin b => Fin (a * b)
  | PInf, Fin a | Fin a, PInf => inf_times true a
  | NInf, Fin a | Fin a, NInf => inf_times false a
  | PInf, PInf | NInf, NInf => PInf
  | PInf, NInf | NInf, PInf => NInf
  end.

(** Division.  A zero divisor is the positive zero: the only divisors of
    the script are an element count and the result of a square root. *)
Definition div (x y : np_float) : np_float :=
  match x, y with
  | NaN, _ | _, NaN => NaN
  | Fin a, Fin b =>
      if Req_EM_T b 0 then
        match total_order_T a 0 with
        | inleft (left _) => NInf
        | inleft (right _) => NaN
        | inright _ => PInf
        end
      else Fin (a / b)
  | Fin _, (PInf | NInf) => Fin 0
  | PInf, Fin b => if Rlt_dec b 0 then NInf else PInf
  | NInf, Fin b => if Rlt_dec b 0 then PInf else NInf
  | (PInf | NInf), (PInf | NInf) => NaN
  end.

Definition sqrt (x : np_float) : np_float :=
  match x with
  | Fin a => if Rlt_dec a 0 then NaN else Fin (R_sqrt.sqrt a)
  | PInf => PInf
  | NInf | NaN => NaN
  end.

(** [ufunc.reduce] of [np.add] over a one-dimensional array: the
    accumulator starts at the identity and takes the elements in order. *)
Definition sum (xs : list np_float) : np_float :=
  fold_left add xs (Fin 0).

Definition count (xs : list np_float) : np_float :=
  Fin (INR (length xs)).

(** Arithmetic of an array with a scalar broadcasts the scalar. *)
Definition sub_scalar (xs : list np_float) (c : np_float) : list np_float :=
  (λ x, sub x c) <$> xs.

Definition div_scalar (xs : list np_float) (c : np_float) : list np_float :=
  (λ x, div x c) <$> xs.

(** [np.mean(xs)]: the sum divided by the number of elements; on an empty
    array this is [0/0], that is [nan] (with a warning). *)
Definition mean (xs : list np_float) : np_float :=
  div (sum xs) (count xs).

(** [np.var(xs)] with the default [ddof=0]: the mean of the squared
    deviations from the mean. *)
Definition var (xs : list np_float) : np_float :=
  let x := sub_scalar xs (mean xs) in
  div (sum (zip_with mul x x)) (count xs).

(** [np.std(xs)]: the square root of [np.var(xs)]. *)
Definition std (xs : list np_float) : np_float :=
  sqrt (var xs).

(** [a + b] on one-dimensional arrays: element-wise on equal shapes, a
    one-element array is broadcast, any other pair of shapes raises. *)
Definition add_arrays (a b : list np_float) : py (list np_float) :=
  if decide (length a = length b) then Ok (zip_with add a b)
  else match a, b with
       | [x], _ => Ok (add x <$> b)
       | _, [y] => Ok ((λ x, add x y) <$> a)
       | _, _ => Raise (ValueError "operands could not be broadcast together")
       end.

End NP.

Abbreviation np_float := NP.np_float.
Abbreviation Fin := NP.Fin.
Abbreviation PInf := NP.PInf.
Abbreviation NInf := NP.NInf.
Abbreviation NaN := NP.NaN.
Abbreviation is_finite := NP.is_finite.

(** [z = (np.array(xs) - np.mean(xs)) / np.std(xs)], the expression the
    script applies to every score list before summing. *)
Definition normalized (xs : list np_float) : list np_float :=
  NP.div_scalar (NP.sub_scalar xs (NP.mean xs)) (NP.std xs).

(** ** binary64 values

    The same numpy operations on binary64, every operation rounded to
    nearest as the processor does it. *)

Module F64.
Import PrimFloat.
#[local] Open Scope float_scope.

(** The element count of an array as a float64 (exact below [2^53]). *)
Definition of_nat (n : nat) : float := of_uint63 (Uint63.of_Z (Z.of_nat n)).

(** The unrolled loop of numpy's [pairwise_sum]: as long as 8 elements
    remain, each is added to its own accumulator. *)
Fixpoint blocks (fuel : nat) (r a : list float) : list float * list float :=
  match fuel with
  | O => (r, a)
  | S fuel' =>
      if Nat.leb 8 (length a) then blocks fuel' (zip_with add r (take 8 a)) (drop 8 a)
      else (r, a)
  end.

(** [pairwise_sum] over a contiguous float64 array: fewer than 8 elements
    are added in order to an accumulator that starts at 0; up to 128
    elements go through the 8 accumulators, which are added pairwise
    before the elements left over are added in order; a longer array is
    cut at half its length, rounded down to a multiple of 8, and the sums
    of the two parts are added.  [fuel] bounds the depth of the cuts. *)
Fixpoint pairwise_sum (fuel : nat) (a : list float) : float :=
  let n := length a in
  if Nat.ltb n 8 then fold_left add a 0
  else if Nat.leb n 128 then
    match blocks n (take 8 a) (drop 8 a) with
    | ([r0; r1; r2; r3; r4; r5; r6; r7], rest) =>
        fold_left add rest (((r0 + r1) + (r2 + r3)) + ((r4 + r5) + (r6 + r7)))
    | _ => nan
    end
  else
    match fuel with
    | O => nan
    | S fuel' =>
        let n2 := (n / 2 - (n / 2) mod 8)%nat in
        pairwise_sum fuel' (take n2 a) + pairwise_sum fuel' (drop n2 a)
    end.

(** [np.add.reduce] over a one-dimensional float64 array: the result
    starts at the identity 0 and the inner loop adds the pairwise sum. *)
Definition sum (xs : list float) : float :=
  0 + pairwise_sum (length xs) xs.

Definition sub_scalar (xs : list float) (c : float) : list float :=
  (λ x, x - c) <$> xs.

Definition div_scalar (xs : list float) (c : float) : list float :=
  (λ x, x / c) <$> xs.

(** [np.mean], [np.var] (with [ddof=0]) and [np.std]. *)
Definition mean (xs : list float) : float :=
  sum xs / of_nat (length xs).

Definition var (xs : list float) : float :=
  let x := sub_scalar xs (mean xs) in
  sum (zip_with mul x x) / of_nat (length xs).

Definition std (xs : list float) : float :=
  sqrt (var xs).

(** [(np.array(xs) - np.mean(xs)) / np.std(xs)] *)
Definition normalized (xs : list float) : list float :=
  div_scalar (sub_scalar xs (mean xs)) (std xs).

(** The conversion of a float64 to single precision, which a store into a
    float32 tensor applies: the value is rounded to nearest, ties to
    even, with 24 significant bits and exponents up to 127; what is too
    large becomes an infinity.  The result is kept as the float64 of the
    same value. *)
Definition to_float32 (x : float) : float :=
  match FloatOps.Prim2SF x with
  | SpecFloat.S754_finite s m e =>
      FloatOps.SF2Prim
        (SpecFloat.binary_normalize 24 128 (SpecFloat.cond_Zopp s (Z.pos m)) e s)
  | _ => x
  end.

(** Some values for the examples: [0.1] is the float64 nearest to one
    tenth and [0.1 + ulp] the next float64 above it, which Python prints
    as [0.10000000000000002]. *)
Definition tenth : float := 0x1.999999999999ap-4.
Definition neg_one : float := -1.
(** [1/3] as a float64, and the float32 nearest to it, which Python
    prints as [0.3333333432674408]. *)
Definition third : float := 1 / 3.
Definition third_single : float := 0x1.555556p-2.

End F64.

Abbreviation float := PrimFloat.float.

(** ** Data read and written by the script *)

(** A row of the input table: its index label (column 0, [index_col=0])
    and its [smiles] entry.  The other columns are not used. *)
Abbreviation DataFrame := (list (Z * string)).
Abbreviation Series := (list (Z * string)).

(** What [np.savetxt] receives: a vector or a matrix. *)
Inductive ndarray : Type :=
  | Vec (v : list np_float)
  | Mat (m : list (list np_float)).

(** The files of [data/latent_features_and_targets], by file name. *)
Abbreviation files := (gmap string ndarray).

(** The command line: [--input], [--obj], [--cutoff], [--name]. *)
Record Args : Type := {
  input : string;
  obj : string;
  cutoff : Z;
  name : string }.

Definition default_args : Args :=
  {| input := "data/250k_zinc.csv"; obj := "logp"; cutoff := 2000; name := "250k" |}.

(** ** External collaborators *)

(** RDKit and the repository's [data_processing] scorers.  The scorers
    receive whatever [MolFromSmiles] returned, [None] included, and may
    raise. *)
Class Chemistry : Type := {
  Mol : Type;
  MolFromSmiles : string → option Mol;
  logP : option Mol → py np_float;
  qed : option Mol → py np_float;
  cycle_score : option Mol → py np_float;
  calculateScore : option Mol → py np_float;
  GetMorganFingerprintAsBitVect : option Mol → Z → Z → py (list bool);
  QED_qed : Mol → float }.

(** The pretrained model ([model.embed(dataloader, smiles_df)]) and the
    pickled classifier ([clf.predict_proba(fps)]). *)
Class Models : Type := {
  embed : DataFrame → list (list np_float);
  predict_proba : list (list bool) → py (list (list np_float)) }.

(** ** pandas and numpy helpers *)

(** [pd.read_csv(path, index_col=0, nrows=n)] on a file holding [csv]. *)
Definition read_csv (csv : DataFrame) (nrows : option Z) : DataFrame :=
  match nrows with
  | Some n => take (Z.to_nat n) csv
  | None => csv
  end.

(** The value of [series[i]]: label-based; one matching row gives its
    entry, several give a sub-series, none raises [KeyError]. *)
Inductive pyobj : Type :=
  | Str (s : string)
  | SubSeries (rows : Series).

Definition getitem (s : Series) (i : Z) : py pyobj :=
  match filter (λ r, r.1 = i) s with
  | [] => Raise (KeyError i)
  | [r] => Ok (Str r.2)
  | rs => Ok (SubSeries rs)
  end.

(** [MolFromSmiles(o)]: RDKit refuses an argument that is not a string. *)
Definition MolFromSmiles_arg `{Chemistry} (o : pyobj) : py (option Mol) :=
  match o with
  | Str s => Ok (MolFromSmiles s)
  | SubSeries _ => Raise ArgumentError
  end.

(** [np.vstack(rows)] of [1 x n] rows. *)
Definition vstack {A : Type} (rows : list (list A)) : py (list (list A)) :=
  match rows with
  | [] => Raise (ValueError "need at least one array to concatenate")
  | r :: rs =>
      if forallb (λ r', Nat.eqb (length r') (length r)) rs then Ok rows
      else Raise (ValueError "all the input array dimensions must match")
  end.

(** [m[:,1]] on a two-dimensional array given by its rows. *)
Fixpoint column1 (m : list (list np_float)) : py (list np_float) :=
  match m with
  | [] => Ok []
  | row :: rest =>
      match row !! 1%nat with
      | Some x => (x ::.) <$> column1 rest
      | None => Raise IndexError
      end
  end.

(** A [for] loop over [xs] threading the loop state [a]; an exception in
    the body leaves the loop. *)
Fixpoint for_each {A B : Type} (body : A → B → py A) (a : A) (xs : list B) : py A :=
  match xs with
  | [] => Ok a
  | x :: xs' => a' ← body a x; for_each body a' xs'
  end.

(** ** The scoring loops *)

(** The three lists a three-objective loop fills. *)
Record scores : Type := {
  prop_values : list np_float;
  SA_scores : list np_float;
  cycle_scores : list np_float }.

Definition no_scores : scores :=
  {| prop_values := []; SA_scores := []; cycle_scores := [] |}.

(** One iteration of the [logp] loop ([prop] is [logP]) or of the [qed]
    loop ([prop] is [qed]). *)
Definition score_step `{Chemistry} (prop : option Mol → py np_float)
    (smiles_rdkit : Series) (acc : scores) (i : nat) : py scores :=
  o ← getitem smiles_rdkit (Z.of_nat i);
  m ← MolFromSmiles_arg o;
  p ← prop m;
  sa ← calculateScore m;
  cy ← cycle_score m;
  Ok {| prop_values := prop_values acc ++ [p];
        SA_scores := SA_scores acc ++ [NP.neg sa];
        cycle_scores := cycle_scores acc ++ [NP.neg cy] |}.

Definition score_loop `{Chemistry} (prop : option Mol → py np_float)
    (smiles_rdkit : Series) : py scores :=
  for_each (score_step prop smiles_rdkit) no_scores (seq 0 (length smiles_rdkit)).

(** [SA_scores_normalized + X_normalized + cycle_scores_normalized]. *)
Definition composite (sc : scores) : py (list np_float) :=
  t ← NP.add_arrays (normalized (SA_scores sc)) (normalized (prop_values sc));
  NP.add_arrays t (normalized (cycle_scores sc)).

(** The fingerprint loop of the [qsar] branch and [np.vstack(fps)]. *)
Definition fingerprint_step `{Chemistry} (fps : list (list bool)) (r : Z * string)
    : py (list (list bool)) :=
  fp ← GetMorganFingerprintAsBitVect (MolFromSmiles r.2) 3 2048;
  Ok (fps ++ [fp]).

Definition fingerprints `{Chemistry} (smiles_rdkit : Series) : py (list (list bool)) :=
  fps ← for_each fingerprint_step [] smiles_rdkit;
  vstack fps.

Definition qsar_targets `{Chemistry, Models} (smiles_rdkit : Series) : py (list np_float) :=
  fps ← fingerprints smiles_rdkit;
  probas ← predict_proba fps;
  targets ← column1 probas;
  Ok (normalized targets).

(** ** The script *)

(** State (the output directory) and exceptions; the files written
    before an exception stay written. *)
Definition M (A : Type) : Type := files → files * py A.

Definition M_ret {A : Type} (a : A) : M A := λ fs, (fs, Ok a).
Definition M_bind {A B : Type} (f : A → M B) (c : M A) : M B :=
  λ fs, match c fs with
        | (fs', Ok a) => f a fs'
        | (fs', Raise e) => (fs', Raise e)
        end.
#[global] Instance M_mret : MRet M := @M_ret.
#[global] Instance M_mbind : MBind M := @M_bind.

Definition lift {A : Type} (x : py A) : M A := λ fs, (fs, x).
Definition raise {A : Type} (e : exn) : M A := λ fs, (fs, Raise e).

Definition savetxt (file : string) (a : ndarray) : M unit :=
  λ fs, (<[file := a]> fs, Ok tt).

(** The body shared, up to the scorer and two file names, by the [logp]
    and [qed] branches. *)
Definition three_objectives `{Chemistry} (prop : option Mol → py np_float)
    (targets_file values_file : string) (smiles_rdkit : Series) : M unit :=
  sc ← lift (score_loop prop smiles_rdkit);
  targets ← lift (composite sc);
  _ ← savetxt targets_file (Vec targets);
  _ ← savetxt values_file (Vec (prop_values sc));
  _ ← savetxt "SA_scores.txt" (Vec (SA_scores sc));
  savetxt "cycle_scores.txt" (Vec (cycle_scores sc)).

(** The table the script works on: [csv] is the content of the input
    file, cut at [--cutoff] rows when the cutoff is positive. *)
Definition load_smiles_df (args : Args) (csv : DataFrame) : DataFrame :=
  if bool_decide (0 < cutoff args)%Z then read_csv csv (Some (cutoff args))
  else read_csv csv None.

Definition main `{Chemistry, Models} (args : Args) (csv : DataFrame) : M unit :=
  let smiles_df := load_smiles_df args csv in
  let z := embed smiles_df in
  _ ← savetxt "latent_features.txt" (Mat z);
  let smiles_rdkit := smiles_df in
  if bool_decide (obj args = "logp") then
    three_objectives logP "targets_logp.txt" "logP_values.txt" smiles_rdkit
  else if bool_decide (obj args = "qed") then
    three_objectives qed "targets_qed.txt" "qed_values.txt" smiles_rdkit
  else if bool_decide (obj args = "qsar") then
    targets ← lift (qsar_targets smiles_rdkit);
    savetxt "targets_qsar.txt" (Vec targets)
  else if bool_decide (obj args = "docking") then
    raise NotImplementedError
  else mret tt.

(** ** [utils.py]: [QED_oracle] *)

(** [t[i] = v] on a one-dimensional tensor of the default type,
    [torch.float32], for a Python float [v]: the value stored is [v]
    converted to single precision. *)
Definition tensor_setitem (t : list float) (i : nat) (v : float)
    : py (list float) :=
  if bool_decide (i < length t)%nat then Ok (<[i := F64.to_float32 v]> t)
  else Raise IndexError.

Definition enumerate {A : Type} (xs : list A) : list (nat * A) :=
  imap (λ i x, (i, x)) xs.

Definition QED_oracle_step `{Chemistry} (t : list float) (entry : nat * string)
    : py (list float) :=
  let '(i, s) := entry in
  match MolFromSmiles s with
  | Some m => tensor_setitem t i (QED_qed m)
  | None => Ok t
  end.

(** [torch.zeros(len(smiles))] is a float32 tensor of zeros. *)
Definition QED_oracle `{Chemistry} (smiles : list string) : py (list float) :=
  let t := replicate (length smiles) PrimFloat.zero in
  for_each QED_oracle_step t (enumerate smiles).

(** ** Conditions on the inputs used in the statements *)

(** The index column counts the rows from 0, as in a table saved by pandas
    with its default index: then the label [i] names the row at position
    [i]. *)
Definition range_indexed (df : DataFrame) : Prop :=
  df.*1 = Z.of_nat <$> seq 0 (length df).

(** [f] returns [vs], row by row, on the molecules parsed from [df]. *)
Definition scored_by `{Chemistry} {A : Type} (f : option Mol → py A)
    (df : DataFrame) (vs : list A) : Prop :=
  Forall2 (λ r v, f (MolFromSmiles r.2) = Ok v) df vs.

(** Iteration [i] of a scoring loop over [df] finds a molecule with the
    property value [p], the SA score [sa] and the cycle score [cy]. *)
Definition scored_row `{Chemistry} (prop : option Mol → py np_float)
    (df : DataFrame) (i : nat) (p sa cy : np_float) : Prop :=
  ∃ o m, getitem df (Z.of_nat i) = Ok o
         ∧ MolFromSmiles_arg o = Ok m
         ∧ prop m = Ok p
         ∧ calculateScore m = Ok sa
         ∧ cycle_score m = Ok cy.

(** The population mean and variance of a list of reals. *)
Definition Rsum (rs : list R) : R := foldr Rplus 0%R rs.
Definition Rmean (rs : list R) : R := (Rsum rs / INR (length rs))%R.
Definition Rvar (rs : list R) : R :=
  (Rsum ((λ r, (r - Rmean rs) * (r - Rmean rs)) <$> rs) / INR (length rs))%R.

(** ** A small world for closed examples

    A molecule is its SMILES string, ["?"] does not parse; the scorers
    count characters and no molecule has a large ring; the QED of a
    molecule of [n] characters is [1/(n+1)]; the classifier looks at the
    first fingerprint bit. *)
Module Toy.
Definition parse (s : string) : option string :=
  if bool_decide (s = "?") then None else Some s.

Definition size (m : option string) : py np_float :=
  match m with
  | Some s => Ok (Fin (INR (String.length s)))
  | None => Raise ArgumentError
  end.

Definition no_large_ring (m : option string) : py np_float :=
  match m with
  | Some _ => Ok (Fin 0)
  | None => Raise ArgumentError
  end.

Definition fingerprint (m : option string) (radius nBits : Z) : py (list bool) :=
  match m with
  | Some s => Ok (replicate (Z.to_nat nBits) (bool_decide (s = "C")))
  | None => Raise ArgumentError
  end.

Definition chemistry : Chemistry :=
  {| Mol := string;
     MolFromSmiles := parse;
     logP := size;
     qed := size;
     cycle_score := no_large_ring;
     calculateScore := size;
     GetMorganFingerprintAsBitVect := fingerprint;
     QED_qed := λ s, PrimFloat.div PrimFloat.one (F64.of_nat (S (String.length s))) |}.

Definition classify (fp : list bool) : list np_float :=
  match fp with
  | true :: _ => [Fin 0; Fin 1]
  | _ => [Fin 1; Fin 0]
  end.

Definition models : Models :=
  {| embed := λ df, (λ r, [Fin (INR (String.length r.2))]) <$> df;
     predict_proba := λ fps, Ok (classify <$> fps) |}.

Definition csv : DataFrame := [(0%Z, "C"); (1%Z, "CC"); (2%Z, "CCC")].

Definition args_for (mode : string) (n : Z) : Args :=
  {| input := "toy.csv"; obj := mode; cutoff := n; name := "toy" |}.
End Toy.

(** ** [utils.py]: the other utilities *)

(** The exceptions of the utilities: the ones above, and those of file
    operations, of integer division and of an unassigned local variable. *)
Inductive error : Type :=
  | Builtin (e : exn)
  | ZeroDivisionError
  | UnboundLocalError (variable : string)
  | FileExistsError (path : string)
  | FileNotFoundError (path : string)
  | JSONDecodeError.

Inductive outcome (A : Type) : Type :=
  | Return (a : A)
  | Throw (e : error).
Arguments Return {A} a.
Arguments Throw {A} e.

Definition outcome_bind {A B : Type} (f : A → outcome B) (x : outcome A) : outcome B :=
  match x with
  | Return a => f a
  | Throw e => Throw e
  end.

#[global] Instance outcome_ret : MRet outcome := @Return.
#[global] Instance outcome_mbind : MBind outcome := @outcome_bind.

(** A [for] loop whose body may raise. *)
Fixpoint loop {A B : Type} (body : A → B → outcome A) (a : A) (xs : list B) : outcome A :=
  match xs with
  | [] => Return a
  | x :: xs' => a' ← body a x; loop body a' xs'
  end.

(** A computation on a state [S] that may raise; the state reached when
    the exception is raised is kept. *)
Definition St (S A : Type) : Type := S → S * outcome A.

Definition St_bind {S A B : Type} (f : A → St S B) (c : St S A) : St S B :=
  λ s, match c s with
       | (s', Return a) => f a s'
       | (s', Throw e) => (s', Throw e)
       end.
#[global] Instance St_mret {S : Type} : MRet (St S) := λ A a s, (s, Return a).
#[global] Instance St_mbind {S : Type} : MBind (St S) := @St_bind S.

(** *** [os.path.join] *)

Definition sep : Ascii.ascii := Ascii.ascii_of_nat 47.

Definition startswith_sep (b : string) : bool :=
  match b with
  | String c _ => bool_decide (c = sep)
  | EmptyString => false
  end.

Fixpoint endswith_sep (a : string) : bool :=
  match a with
  | EmptyString => false
  | String c EmptyString => bool_decide (c = sep)
  | String _ a' => endswith_sep a'
  end.

(** One step of [posixpath.join]: an absolute component replaces what
    was joined so far, another one is appended after a separator. *)
Definition join_step (path b : string) : string :=
  if startswith_sep b then b
  else if bool_decide (path = "") || endswith_sep path then path +:+ b
  else path +:+ String sep b.

Definition path_join (a : string) (p : list string) : string :=
  foldl join_step a p.

(** *** Directory management: [soft_mkdir], [setup] *)

(** The directories of the machine: [os.path.exists] and [os.mkdir]. *)
Class Directories : Type := {
  tree : Type;
  path_exists : string → tree → bool;
  os_mkdir : string → St tree unit }.

Definition soft_mkdir `{Directories} (path : string) : St tree unit :=
  λ t, if path_exists path t then (t, Return tt) else os_mkdir path t.

Definition setup `{Directories} (script_dir : string) (name : option string)
    (permissive : bool) : St tree (string * string) :=
  _ ← soft_mkdir (path_join script_dir ["results"]);
  _ ← soft_mkdir (path_join script_dir ["results/logs"]);
  _ ← soft_mkdir (path_join script_dir ["results/saved_models"]);
  match name with
  | Some name =>
      let logdir := path_join script_dir ["results/logs"; name] in
      let modeldir := path_join script_dir ["results/saved_models"; name] in
      _ ← (if permissive
           then (_ ← soft_mkdir logdir; soft_mkdir modeldir)
           else (_ ← os_mkdir logdir; os_mkdir modeldir));
      mret (logdir, modeldir)
  | None => λ t, (t, Throw (UnboundLocalError "logdir"))
  end.

(** What POSIX promises of [mkdir]: it refuses an existing path, on
    success the path exists and no path disappears, and on failure
    nothing changes. *)
Definition posix_mkdir `{Directories} : Prop :=
  (∀ p t, path_exists p t = true → os_mkdir p t = (t, Throw (FileExistsError p)))
  ∧ (∀ p t t', os_mkdir p t = (t', Return tt) →
       path_exists p t' = true
       ∧ ∀ q, path_exists q t = true → path_exists q t' = true)
  ∧ (∀ p t t' e, os_mkdir p t = (t', Throw e) → t' = t).

(** *** [Dumper.dump] *)

Definition nul : Ascii.ascii := Ascii.ascii_of_nat 0.

Fixpoint has_nul (path : string) : bool :=
  match path with
  | EmptyString => false
  | String c path' => bool_decide (c = nul) || has_nul path'
  end.

Section Dumper.
(** A Python dictionary; [json.dumps(d, indent=n)], which raises on a
    dictionary it cannot serialise ([ValueError] for a circular one,
    [TypeError] for a value or key without a JSON form); and the refusal
    of the system to open a path for writing (the empty path, a missing
    directory, a directory, a missing permission), by the exception that
    [open] then raises. *)
Context {dict : Type} (json_dumps : dict → Z → outcome string)
  (refused : string → gmap string string → option error).

Record Dumper : Type := {
  dumping_path : option string;
  dic : dict }.

(** [open(path, 'w')]: Python itself refuses a path with a NUL character,
    then the system is asked. *)
Definition open_w (path : string) (fs : gmap string string) : outcome unit :=
  if has_nul path then Throw (Builtin (ValueError "embedded null byte"))
  else match refused path fs with
       | Some e => Throw e
       | None => Return tt
       end.

(** [print(j, file=f)] on the file opened at [path], in the text files of
    the machine, by path. *)
Definition print_to (path j : string) (fs : gmap string string) : gmap string string :=
  <[path := j +:+ String (Ascii.ascii_of_nat 10) EmptyString]> fs.

Definition dump (self : Dumper) (dict_to_dump : option dict)
    (dumping_path_arg : option string) : St (gmap string string) unit :=
  λ fs,
  let dumping_path_arg :=
    match dumping_path_arg with
    | None => dumping_path self
    | Some p => Some p
    end in
  match dumping_path_arg with
  | None =>
      (fs, Throw (Builtin (ValueError "Where should I dump ? No dump_path provided")))
  | Some path =>
      let dict_to_dump :=
        match dict_to_dump with
        | None => dic self
        | Some d => d
        end in
      match json_dumps dict_to_dump 4 with
      | Throw e => (fs, Throw e)
      | Return j =>
          match open_w path fs with
          | Throw e => (fs, Throw e)
          | Return _ => (print_to path j fs, Return tt)
          end
      end
  end.
End Dumper.

(** *** [Dumper.load] and [Dumper.__init__] *)

Section Dumper_init.
(** A dictionary with string keys, and [json.load] on the text of a file. *)
Context {V : Type} (json_loads : string → outcome (gmap string V)).

Definition load (file_to_read : string) (fs : gmap string string)
    : outcome (gmap string V) :=
  match fs !! file_to_read with
  | Some text => json_loads text
  | None => Throw (FileNotFoundError file_to_read)
  end.

(** [Dumper(dumping_path, ini, argparse)]; [argparse] is given by its
    [__dict__], and [d.update(e)] is the union that prefers [e]. *)
Definition Dumper_init (script_dir : string) (dumping_path_arg : option string)
    (ini : option string) (argparse : option (gmap string V))
    (fs : gmap string string) : outcome (@Dumper (gmap string V)) :=
  dic ← load (path_join script_dir
                ["results/saved_models/inference_default/params.json"]) fs;
  dic ← match ini with
        | Some ini =>
            ini_dic ← load (path_join script_dir [".."; ini]) fs;
            Return (ini_dic ∪ dic)
        | None => Return dic
        end;
  let dic := match argparse with
             | Some namespace => namespace ∪ dic
             | None => dic
             end in
  Return {| dumping_path := dumping_path_arg; dic := dic |}.
End Dumper_init.

(** *** SMILES handling: [i2s], [log_smiles_from_indices] *)

(** [[idx_to_char[idx] for idx in idces]]: the first index that is not a
    key raises [KeyError]. *)
Fixpoint chars_of (idx_to_char : gmap Z string) (idces : list Z) : outcome (list string) :=
  match idces with
  | [] => Return []
  | idx :: rest =>
      match idx_to_char !! idx with
      | Some c => cs ← chars_of idx_to_char rest; Return (c :: cs)
      | None => Throw (Builtin (KeyError idx))
      end
  end.

(** [''.join(cs)]. *)
Definition join_strings (cs : list string) : string :=
  foldr String.append EmptyString cs.

Definition i2s (idces : list Z) (idx_to_char : gmap Z string) : outcome string :=
  cs ← chars_of idx_to_char idces; Return (join_strings cs).

(** [s.rstrip('\n')]: [s] without its trailing line feeds. *)
Fixpoint rstrip_newline (s : string) : string :=
  match s with
  | EmptyString => EmptyString
  | String c s' =>
      match rstrip_newline s' with
      | EmptyString =>
          if bool_decide (c = Ascii.ascii_of_nat 10) then EmptyString
          else String c EmptyString
      | r => String c r
      end
  end.

(** The lists and the counter of the loop of [log_smiles_from_indices]. *)
Record smiles_log : Type := {
  in_smiles : list string;
  out_smiles : list string;
  identical : nat }.

(** The dictionary handed to [pd.DataFrame.from_dict]: the column
    ['input smiles'], when there is one, and the column ['output smiles']. *)
Record smiles_frame : Type := {
  input_column : option (list string);
  output_column : list string }.

(** [a[i]] on the rows of a two-dimensional array, for [i >= 0]. *)
Definition row {A : Type} (a : list (list A)) (i : nat) : outcome (list A) :=
  match a !! i with
  | Some r => Return r
  | None => Throw (Builtin IndexError)
  end.

(** The body of the loop when [true_idces] is an array. *)
Definition compare_step (true_idces out_idces : list (list Z))
    (idx_to_char : gmap Z string) (st : smiles_log) (i : nat) : outcome smiles_log :=
  out_row ← row out_idces i;
  o ← i2s out_row idx_to_char;
  let outs := out_smiles st ++ [o] in
  true_row ← row true_idces i;
  s ← i2s true_row idx_to_char;
  let ins := in_smiles st ++ [s] in
  Return {| in_smiles := ins;
            out_smiles := outs;
            identical := if bool_decide (ins = outs) then S (identical st)
                         else identical st |}.

(** The body of the loop otherwise: only valid SMILES are kept. *)
Definition sample_step `{Chemistry} (out_idces : list (list Z))
    (idx_to_char : gmap Z string) (st : smiles_log) (i : nat) : outcome smiles_log :=
  out_row ← row out_idces i;
  out ← i2s out_row idx_to_char;
  Return (match MolFromSmiles (rstrip_newline out) with
          | Some _ => {| in_smiles := in_smiles st;
                         out_smiles := out_smiles st ++ [out];
                         identical := identical st |}
          | None => st
          end).

(** [k / N] on Python integers. *)
Definition int_truediv (k N : nat) : outcome np_float :=
  if bool_decide (N = 0%nat) then Throw ZeroDivisionError
  else Return (Fin (INR k / INR N)).

(** [[int(m != None) for m in valid]] as floats, for [np.mean]. *)
Definition validity `{Chemistry} (smiles : list string) : list np_float :=
  (λ o, match MolFromSmiles (rstrip_newline o) with
        | Some _ => Fin 1
        | None => Fin 0
        end) <$> smiles.

(** [true_idces] is [Some a] when it is a numpy array with rows [a], and
    [None] when it is anything else; [out_idces] is given by its rows. *)
Definition log_smiles_from_indices `{Chemistry} (true_idces : option (list (list Z)))
    (out_idces : list (list Z)) (idx_to_char : gmap Z string)
    : outcome (smiles_frame * np_float * np_float) :=
  let N := length out_idces in
  let start := {| in_smiles := []; out_smiles := []; identical := 0 |} in
  match true_idces with
  | Some true_idces =>
      st ← loop (compare_step true_idces out_idces idx_to_char) start (seq 0 N);
      let d := {| input_column := Some (in_smiles st);
                  output_column := out_smiles st |} in
      let frac_valid := NP.mean (validity (out_smiles st)) in
      frac_id ← int_truediv (identical st) N;
      Return (d, frac_valid, frac_id)
  | None =>
      st ← loop (sample_step out_idces idx_to_char) start (seq 0 N);
      let d := {| input_column := None; output_column := out_smiles st |} in
      frac_valid ← int_truediv (length (out_smiles st)) N;
      Return (d, frac_valid, Fin 0)
  end.

(** The rows that come first and agree: the leading exact reconstructions. *)
Fixpoint leading_matches (ins outs : list string) : nat :=
  match ins, outs with
  | a :: ins', b :: outs' =>
      if bool_decide (a = b) then S (leading_matches ins' outs') else 0
  | _, _ => 0
  end.

(** *** [log_reconstruction] *)

Section log_reconstruction.
(** [np.argmax(probas, axis=1)] on an array of shape [(N, voc_size,
    seq_len)] given by its [N] blocks, and the [decoder] of selfies. *)
Context `{Chemistry} (argmax_axis1 : list (list (list np_float)) → list (list Z))
  (decoder : string → outcome string).

(** What the function returns: a frame with the fraction of valid
    outputs, or the pair [0, 0]. *)
Inductive reconstruction_log : Type :=
  | Frame (d : smiles_frame) (frac_valid : np_float)
  | Zeros.

(** The body of the loop: the output string, then the input string. *)
Definition decode_step (true_idces out_idces : list (list Z))
    (idx_to_char : gmap Z string) (st : list string * list string) (i : nat)
    : outcome (list string * list string) :=
  out_row ← row out_idces i;
  o ← i2s out_row idx_to_char;
  true_row ← row true_idces i;
  s ← i2s true_row idx_to_char;
  Return (st.1 ++ [s], st.2 ++ [o]).

(** [l[i]] on a Python list, for [i >= 0]. *)
Definition item {A : Type} (l : list A) (i : nat) : outcome A :=
  match l !! i with
  | Some x => Return x
  | None => Throw (Builtin IndexError)
  end.

(** [print(decoder(in_smiles[i]), ' => ', decoder(out_smiles[i]))]. *)
Definition print_sample (ins outs : list string) (_ : unit) (i : nat) : outcome unit :=
  a ← item ins i;
  _ ← decoder a;
  b ← item outs i;
  _ ← decoder b;
  Return tt.

Definition log_reconstruction (true_idces : list (list Z))
    (probas : list (list (list np_float))) (idx_to_char : gmap Z string)
    (string_type : string) : outcome reconstruction_log :=
  let N := length probas in
  let out_idces := argmax_axis1 probas in
  st ← loop (decode_step true_idces out_idces idx_to_char) ([], []) (seq 0 N);
  let d := {| input_column := Some st.1; output_column := st.2 |} in
  if bool_decide (string_type = "smiles") then
    Return (Frame d (NP.mean (validity st.2)))
  else
    _ ← loop (print_sample st.1 st.2) tt (seq 0 3);
    Return Zeros.
End log_reconstruction.

(** The files a mode writes besides the embeddings. *)
Definition files_of_mode (mode : string) : list string :=
  if bool_decide (mode = "logp")
  then ["targets_logp.txt"; "logP_values.txt"; "SA_scores.txt"; "cycle_scores.txt"]
  else if bool_decide (mode = "qed")
  then ["targets_qed.txt"; "qed_values.txt"; "SA_scores.txt"; "cycle_scores.txt"]
  else if bool_decide (mode = "qsar") then ["targets_qsar.txt"]
  else [].

(** A flat model of the directories for closed examples: the list of the
    paths that exist. *)
Module ToyOS.
Definition mkdir (p : string) : St (list string) unit :=
  λ t, if bool_decide (p ∈ t) then (t, Throw (FileExistsError p))
       else (p :: t, Return tt).

Definition directories : Directories :=
  {| tree := list string;
     path_exists := λ p t, bool_decide (p ∈ t);
     os_mkdir := mkdir |}.
End ToyOS.

(** Reads a file back from a directory given as a chain of writes. *)
Ltac read_file :=
  repeat (rewrite lookup_insert_ne by done); rewrite ?lookup_insert_eq.

(** * Properties *)

(** ** Arithmetic of [np_float] *)

Section np_float_facts.
#[local] Open Scope R_scope.

Lemma div_fin (a b : R) : b ≠ 0 → NP.div (Fin a) (Fin b) = Fin (a / b).
Proof. intros Hb. simpl. destruct (Req_EM_T b 0); [done|reflexivity]. Qed.

Lemma div_zero_zero : NP.div (Fin 0) (Fin 0) = NaN.
Proof.
  simpl. destruct (Req_EM_T 0 0) as [_|Hne]; [|by destruct Hne].
  destruct (total_order_T 0 0) as [[Hlt|_]|Hgt]; [|done|]; exfalso; lra.
Qed.

Lemma add_NaN_r (x : np_float) : NP.add x NaN = NaN.
Proof. by destruct x. Qed.

Lemma add_NaN_l (x : np_float) : NP.add NaN x = NaN.
Proof. by destruct x. Qed.

Lemma add_finite (x y : np_float) :
  is_finite (NP.add x y) = is_finite x && is_finite y.
Proof. by destruct x, y. Qed.

Lemma neg_finite (x : np_float) : is_finite (NP.neg x) = is_finite x.
Proof. by destruct x. Qed.

Lemma sub_finite (x y : np_float) :
  is_finite (NP.sub x y) = is_finite x && is_finite y.
Proof. unfold NP.sub. by rewrite add_finite, neg_finite. Qed.

Lemma mul_self_finite (x : np_float) : is_finite (NP.mul x x) = is_finite x.
Proof. by destruct x. Qed.

Lemma is_finite_Fin (x : np_float) : is_finite x = true → ∃ r, x = Fin r.
Proof. destruct x; naive_solver. Qed.

Lemma all_finite_Fin (xs : list np_float) :
  forallb is_finite xs = true → ∃ rs, xs = Fin <$> rs.
Proof.
  induction xs as [|x xs IH]; simpl; [by exists []|].
  intros [Hx Hxs]%andb_prop. destruct (is_finite_Fin x Hx) as [r ->].
  destruct (IH Hxs) as [rs ->]. by exists (r :: rs).
Qed.

(** The running sum of finite values is the real sum. *)
Lemma fold_add_Fin (rs : list R) (a : R) :
  fold_left NP.add (Fin <$> rs) (Fin a) = Fin (a + Rsum rs).
Proof.
  revert a. induction rs as [|r rs IH]; intros a; simpl.
  - f_equal. lra.
  - rewrite IH. f_equal. lra.
Qed.

Lemma sum_Fin (rs : list R) : NP.sum (Fin <$> rs) = Fin (Rsum rs).
Proof. unfold NP.sum. rewrite fold_add_Fin. f_equal. lra. Qed.

(** A sum is finite only if every term is. *)
Lemma fold_add_finite (xs : list np_float) (a : np_float) :
  is_finite (fold_left NP.add xs a) = is_finite a && forallb is_finite xs.
Proof.
  revert a. induction xs as [|x xs IH]; intros a; simpl.
  - by rewrite andb_true_r.
  - by rewrite IH, add_finite, andb_assoc.
Qed.

Lemma sum_finite (xs : list np_float) :
  is_finite (NP.sum xs) = forallb is_finite xs.
Proof. unfold NP.sum. by rewrite fold_add_finite. Qed.

(** A quotient by a count is finite only if the dividend is finite and
    the count is not zero. *)
Lemma div_count_finite (x : np_float) (n : nat) (v : R) :
  NP.div x (Fin (INR n)) = Fin v →
  ∃ a, x = Fin a ∧ n ≠ 0%nat ∧ v = a / INR n.
Proof.
  destruct x as [a| | |]; simpl; try done.
  - destruct (Req_EM_T (INR n) 0) as [Hz|Hnz].
    + by destruct (total_order_T a 0) as [[?|?]|?].
    + intros [= <-]. exists a. split_and!; [done| |done].
      intros ->. by apply Hnz.
  - by destruct (Rlt_dec (INR n) 0).
  - by destruct (Rlt_dec (INR n) 0).
Qed.

Lemma INR_length_nonzero {A : Type} (l : list A) : l ≠ [] → INR (length l) ≠ 0.
Proof. intros Hl. apply not_0_INR. by destruct l. Qed.

Lemma mean_Fin (rs : list R) : rs ≠ [] → NP.mean (Fin <$> rs) = Fin (Rmean rs).
Proof.
  intros Hrs. unfold NP.mean, NP.count, Rmean.
  rewrite sum_Fin, length_fmap. by apply div_fin, INR_length_nonzero.
Qed.

Lemma sub_scalar_Fin (rs : list R) (c : R) :
  NP.sub_scalar (Fin <$> rs) (Fin c) = Fin <$> ((λ r, r - c) <$> rs).
Proof.
  unfold NP.sub_scalar. rewrite <- !list_fmap_compose.
  apply list_fmap_ext. intros _ r _. reflexivity.
Qed.

Lemma squares_Fin (rs : list R) :
  zip_with NP.mul (Fin <$> rs) (Fin <$> rs) = Fin <$> ((λ r, r * r) <$> rs).
Proof. induction rs as [|r rs IH]; csimpl; [done|]. by rewrite IH. Qed.

Lemma var_Fin (rs : list R) : rs ≠ [] → NP.var (Fin <$> rs) = Fin (Rvar rs).
Proof.
  intros Hrs. unfold NP.var, NP.count, Rvar. cbv zeta.
  rewrite mean_Fin, sub_scalar_Fin, squares_Fin, sum_Fin by done.
  rewrite length_fmap, <- list_fmap_compose.
  by apply div_fin, INR_length_nonzero.
Qed.
End np_float_facts.

(** ** The z-score of a batch *)

Section zscore.
#[local] Open Scope R_scope.



Lemma Rsum_squares_nonneg (rs : list R) : 0 <= Rsum ((λ r, r * r) <$> rs).
Proof. induction rs as [|r rs IH]; csimpl; [lra|]. nra. Qed.

Lemma Rvar_nonneg (rs : list R) : rs ≠ [] → 0 <= Rvar rs.
Proof.
  intros Hrs. unfold Rvar.
  rewrite (list_fmap_compose (λ r, r - Rmean rs) (λ r, r * r)).
  apply Rmult_le_pos; [apply Rsum_squares_nonneg|].
  apply Rlt_le, Rinv_0_lt_compat, lt_0_INR. destruct rs; [done|simpl; lia].
Qed.

Lemma std_Fin (rs : list R) :
  rs ≠ [] → NP.std (Fin <$> rs) = Fin (sqrt (Rvar rs)).
Proof.
  intros Hrs. unfold NP.std. rewrite var_Fin by done. simpl.
  destruct (Rlt_dec (Rvar rs) 0) as [Hneg|_]; [|done].
  pose proof (Rvar_nonneg rs Hrs). lra.
Qed.

Lemma sqrt_Rvar_nonzero (rs : list R) :
  rs ≠ [] → Rvar rs ≠ 0 → sqrt (Rvar rs) ≠ 0.
Proof.
  intros Hrs Hv. pose proof (Rvar_nonneg rs Hrs).
  apply Rgt_not_eq, sqrt_lt_R0. lra.
Qed.

(** The z-scores of the real batch [rs]. *)
Lemma normalized_Fin (rs : list R) :
  rs ≠ [] → Rvar rs ≠ 0 →
  normalized (Fin <$> rs) = Fin <$> ((λ r, (r - Rmean rs) / sqrt (Rvar rs)) <$> rs).
Proof.
  intros Hrs Hv. unfold normalized.
  rewrite mean_Fin, std_Fin, sub_scalar_Fin by done.
  unfold NP.div_scalar. rewrite <- !list_fmap_compose.
  apply list_fmap_ext. intros _ r _. simpl.
  destruct (Req_EM_T (sqrt (Rvar rs)) 0) as [Hz|_]; [|done].
  by apply sqrt_Rvar_nonzero in Hz.
Qed.



(** A batch whose variance is a finite number consists of finite numbers
    and is not empty. *)
Lemma squares_finite (xs : list np_float) (c : np_float) :
  forallb is_finite
    (zip_with NP.mul (NP.sub_scalar xs c) (NP.sub_scalar xs c)) = true →
  forallb is_finite xs = true.
Proof.
  induction xs as [|x xs IH]; csimpl; [done|].
  rewrite mul_self_finite, sub_finite.
  intros [[Hx _]%andb_prop Hxs]%andb_prop. rewrite Hx. by apply IH.
Qed.

Lemma var_Fin_inv (xs : list np_float) (v : R) :
  NP.var xs = Fin v → ∃ rs, xs = Fin <$> rs ∧ rs ≠ [] ∧ v = Rvar rs.
Proof.
  intros Hvar. pose proof Hvar as Hvar'. unfold NP.var, NP.count in Hvar. cbv zeta in Hvar.
  apply div_count_finite in Hvar as (a & Hsum & Hlen & _).
  assert (is_finite (NP.sum (zip_with NP.mul (NP.sub_scalar xs (NP.mean xs))
            (NP.sub_scalar xs (NP.mean xs)))) = true) as Hfin
    by by rewrite Hsum.
  rewrite sum_finite in Hfin. apply squares_finite, all_finite_Fin in Hfin.
  destruct Hfin as [rs ->]. exists rs.
  assert (rs ≠ []) as Hrs by (intros ->; by apply Hlen).
  split_and!; [done..|].
  rewrite var_Fin in Hvar' by done. by injection Hvar'.
Qed.







End zscore.

(** ** Loops and table look-ups *)

Section loops.
Context `{Chemistry}.

Lemma filter_label_below (df : DataFrame) (k k' : nat) :
  df.*1 = Z.of_nat <$> seq k' (length df) → (k < k')%nat →
  filter (λ r, r.1 = Z.of_nat k) df = [].
Proof.
  revert k'. induction df as [|r df IH]; intros k' Hdf Hk; [done|].
  simpl in Hdf. injection Hdf as Hr Hdf.
  rewrite filter_cons_False by lia. by apply (IH (S k')); [|lia].
Qed.

Lemma filter_label_at (df : DataFrame) (k i : nat) (r : Z * string) :
  df.*1 = Z.of_nat <$> seq k (length df) → df !! i = Some r →
  filter (λ r, r.1 = Z.of_nat (k + i)) df = [r].
Proof.
  revert k i. induction df as [|r0 df IH]; intros k i Hdf Hi; [done|].
  simpl in Hdf. injection Hdf as Hr Hdf. destruct i as [|i]; simpl in Hi.
  - injection Hi as ->. rewrite Nat.add_0_r, filter_cons_True by done.
    f_equal. by apply (filter_label_below df k (S k)); [|lia].
  - rewrite filter_cons_False by lia.
    replace (k + S i)%nat with (S k + i)%nat by lia. by apply IH.
Qed.

(** On a table indexed from 0 the label [i] is the position [i]. *)
Lemma getitem_range_indexed (df : DataFrame) (i : nat) (r : Z * string) :
  range_indexed df → df !! i = Some r →
  getitem df (Z.of_nat i) = Ok (Str r.2).
Proof.
  intros Hdf Hi. unfold getitem.
  pose proof (filter_label_at df 0 i r Hdf Hi) as Hf. simpl in Hf.
  by rewrite Hf.
Qed.

Lemma scored_by_length {A : Type} (f : option Mol → py A) (df : DataFrame) (vs : list A) :
  scored_by f df vs → length vs = length df.
Proof. intros Hf. symmetry. by eapply Forall2_length. Qed.

Lemma scored_by_lookup {A : Type} (f : option Mol → py A) (df : DataFrame)
    (vs : list A) (i : nat) (r : Z * string) :
  scored_by f df vs → df !! i = Some r →
  ∃ v, vs !! i = Some v ∧ f (MolFromSmiles r.2) = Ok v.
Proof. intros Hf Hi. by eapply Forall2_lookup_l in Hf. Qed.

Lemma for_each_cons {A B : Type} (body : A → B → py A) (a : A) (x : B) (xs : list B) :
  for_each body a (x :: xs) = a' ← body a x; for_each body a' xs.
Proof. reflexivity. Qed.

Lemma for_each_app {A B : Type} (body : A → B → py A) (a : A) (xs ys : list B) :
  for_each body a (xs ++ ys) = a' ← for_each body a xs; for_each body a' ys.
Proof.
  revert a. induction xs as [|x xs IH]; intros a; [done|].
  simpl. destruct (body a x); simpl; [apply IH|done].
Qed.

(** One iteration on a well-indexed table whose molecule is scored. *)
Lemma score_step_at (prop : option Mol → py np_float) (df : DataFrame)
    (acc : scores) (i : nat) (r : Z * string) (p sa cy : np_float) :
  range_indexed df → df !! i = Some r →
  prop (MolFromSmiles r.2) = Ok p →
  calculateScore (MolFromSmiles r.2) = Ok sa →
  cycle_score (MolFromSmiles r.2) = Ok cy →
  score_step prop df acc i
  = Ok {| prop_values := prop_values acc ++ [p];
          SA_scores := SA_scores acc ++ [NP.neg sa];
          cycle_scores := cycle_scores acc ++ [NP.neg cy] |}.
Proof.
  intros Hdf Hr Hp Hsa Hcy. unfold score_step.
  rewrite (getitem_range_indexed df i r Hdf Hr). simpl.
  by rewrite Hp, Hsa, Hcy.
Qed.

(** The scoring loop, from any iteration on: the remaining iterations
    append the remaining scores. *)
Lemma score_loop_from (prop : option Mol → py np_float) (df : DataFrame)
    (ps sas cys : list np_float) (m k : nat) (acc : scores) :
  range_indexed df →
  scored_by prop df ps → scored_by calculateScore df sas →
  scored_by cycle_score df cys →
  (k + m = length df)%nat →
  for_each (score_step prop df) acc (seq k m)
  = Ok {| prop_values := prop_values acc ++ drop k ps;
          SA_scores := SA_scores acc ++ (NP.neg <$> drop k sas);
          cycle_scores := cycle_scores acc ++ (NP.neg <$> drop k cys) |}.
Proof.
  intros Hdf Hps Hsas Hcys. revert k acc.
  induction m as [|m IH]; intros k acc Hk.
  - simpl. rewrite !drop_ge, !app_nil_r
      by (erewrite scored_by_length by done; lia).
    by destruct acc.
  - destruct (lookup_lt_is_Some_2 df k) as [r Hr]; [lia|].
    destruct (scored_by_lookup _ _ _ _ _ Hps Hr) as (p & Hp & Hpr).
    destruct (scored_by_lookup _ _ _ _ _ Hsas Hr) as (sa & Hsa & Hsar).
    destruct (scored_by_lookup _ _ _ _ _ Hcys Hr) as (cy & Hcy & Hcyr).
    change (seq k (S m)) with (k :: seq (S k) m).
    rewrite for_each_cons, (score_step_at prop df acc k r p sa cy) by done.
    simpl. rewrite IH by lia. simpl.
    rewrite (drop_S ps p k Hp), (drop_S sas sa k Hsa), (drop_S cys cy k Hcy).
    rewrite !fmap_cons, <- !app_assoc. done.
Qed.

Lemma score_loop_scored (prop : option Mol → py np_float) (df : DataFrame)
    (ps sas cys : list np_float) :
  range_indexed df →
  scored_by prop df ps → scored_by calculateScore df sas →
  scored_by cycle_score df cys →
  score_loop prop df
  = Ok {| prop_values := ps;
          SA_scores := NP.neg <$> sas;
          cycle_scores := NP.neg <$> cys |}.
Proof.
  intros Hdf Hps Hsas Hcys. unfold score_loop.
  by rewrite (score_loop_from prop df ps sas cys) by done.
Qed.

(** Conversely, a loop that completed has scored every row it looked up. *)
Lemma score_step_inv (prop : option Mol → py np_float) (df : DataFrame)
    (acc acc' : scores) (i : nat) :
  score_step prop df acc i = Ok acc' →
  ∃ p sa cy,
    scored_row prop df i p sa cy
    ∧ acc' = {| prop_values := prop_values acc ++ [p];
                SA_scores := SA_scores acc ++ [NP.neg sa];
                cycle_scores := cycle_scores acc ++ [NP.neg cy] |}.
Proof.
  unfold score_step, scored_row.
  destruct (getitem df (Z.of_nat i)) as [o|] eqn:Ho; [simpl|done].
  destruct (MolFromSmiles_arg o) as [m|] eqn:Hm; [simpl|done].
  destruct (prop m) as [p|] eqn:Hp; [simpl|done].
  destruct (calculateScore m) as [sa|] eqn:Hsa; [simpl|done].
  destruct (cycle_score m) as [cy|] eqn:Hcy; [simpl|done].
  intros [= <-]. exists p, sa, cy. split; [|done]. by exists o, m.
Qed.

Lemma score_loop_from_inv (prop : option Mol → py np_float) (df : DataFrame)
    (m k : nat) (acc sc : scores) :
  for_each (score_step prop df) acc (seq k m) = Ok sc →
  ∃ ps sas cys,
    sc = {| prop_values := prop_values acc ++ ps;
            SA_scores := SA_scores acc ++ (NP.neg <$> sas);
            cycle_scores := cycle_scores acc ++ (NP.neg <$> cys) |}
    ∧ length ps = m ∧ length sas = m ∧ length cys = m
    ∧ ∀ j p sa cy, ps !! j = Some p → sas !! j = Some sa → cys !! j = Some cy →
        scored_row prop df (k + j) p sa cy.
Proof.
  revert k acc. induction m as [|m IH]; intros k acc Hloop.
  - injection Hloop as <-. exists [], [], []. simpl. rewrite !app_nil_r.
    split; [by destruct acc|]. split_and!; [done..|]. by intros [|j] ????.
  - change (seq k (S m)) with (k :: seq (S k) m) in Hloop.
    rewrite for_each_cons in Hloop.
    destruct (score_step prop df acc k) as [acc'|] eqn:Hstep; [|done].
    apply score_step_inv in Hstep as (p & sa & cy & Hrow & ->).
    simpl in Hloop.
    apply IH in Hloop as (ps & sas & cys & -> & Hlp & Hls & Hlc & Hrows).
    exists (p :: ps), (sa :: sas), (cy :: cys). simpl.
    rewrite <- !app_assoc. split; [done|]. split_and!; [by f_equal..|].
    intros [|j] p' sa' cy' Hp Hsa Hcy; simpl in Hp, Hsa, Hcy.
    + simplify_eq. by rewrite Nat.add_0_r.
    + replace (k + S j)%nat with (S k + j)%nat by lia. by eapply Hrows.
Qed.

Lemma score_loop_inv (prop : option Mol → py np_float) (df : DataFrame)
    (sc : scores) :
  score_loop prop df = Ok sc →
  ∃ ps sas cys,
    sc = {| prop_values := ps;
            SA_scores := NP.neg <$> sas;
            cycle_scores := NP.neg <$> cys |}
    ∧ length ps = length df ∧ length sas = length df ∧ length cys = length df
    ∧ ∀ i p sa cy, ps !! i = Some p → sas !! i = Some sa → cys !! i = Some cy →
        scored_row prop df i p sa cy.
Proof.
  intros (ps & sas & cys & -> & Hrest)%score_loop_from_inv.
  by exists ps, sas, cys.
Qed.

End loops.

(** ** The branches of the script *)

Section branches.
Context `{Chemistry, Models}.

Lemma length_normalized (xs : list np_float) : length (normalized xs) = length xs.
Proof. unfold normalized, NP.div_scalar, NP.sub_scalar. by rewrite !length_fmap. Qed.

Lemma add_arrays_same_shape (a b : list np_float) :
  length a = length b → NP.add_arrays a b = Ok (zip_with NP.add a b).
Proof. intros Hab. unfold NP.add_arrays. by rewrite decide_True. Qed.

(** The three normalised vectors have one shape, so their sum is taken
    element by element and never broadcasts or raises. *)
Lemma composite_same_shape (sc : scores) :
  length (SA_scores sc) = length (prop_values sc) →
  length (prop_values sc) = length (cycle_scores sc) →
  composite sc
  = Ok (zip_with NP.add
          (zip_with NP.add (normalized (SA_scores sc)) (normalized (prop_values sc)))
          (normalized (cycle_scores sc))).
Proof.
  intros H1 H2. unfold composite.
  rewrite add_arrays_same_shape by (by rewrite !length_normalized).
  simpl. rewrite add_arrays_same_shape; [done|].
  rewrite length_zip_with, !length_normalized. lia.
Qed.

Lemma three_objectives_run (prop : option Mol → py np_float)
    (targets_file values_file : string) (df : DataFrame) (fs : files)
    (sc : scores) (targets : list np_float) :
  score_loop prop df = Ok sc → composite sc = Ok targets →
  three_objectives prop targets_file values_file df fs
  = (<["cycle_scores.txt" := Vec (cycle_scores sc)]>
       (<["SA_scores.txt" := Vec (SA_scores sc)]>
          (<[values_file := Vec (prop_values sc)]>
             (<[targets_file := Vec targets]> fs))), Ok tt).
Proof.
  intros Hsc Ht. unfold three_objectives, mbind, M_mbind, M_bind, lift.
  by rewrite Hsc, Ht.
Qed.

Lemma three_objectives_scored (prop : option Mol → py np_float)
    (targets_file values_file : string) (df : DataFrame) (fs : files)
    (ps sas cys : list np_float) :
  range_indexed df →
  scored_by prop df ps → scored_by calculateScore df sas →
  scored_by cycle_score df cys →
  three_objectives prop targets_file values_file df fs
  = (<["cycle_scores.txt" := Vec (NP.neg <$> cys)]>
       (<["SA_scores.txt" := Vec (NP.neg <$> sas)]>
          (<[values_file := Vec ps]>
             (<[targets_file :=
                  Vec (zip_with NP.add
                         (zip_with NP.add (normalized (NP.neg <$> sas)) (normalized ps))
                         (normalized (NP.neg <$> cys)))]> fs))), Ok tt).
Proof.
  intros Hdf Hps Hsas Hcys.
  pose proof (scored_by_length _ _ _ Hps).
  pose proof (scored_by_length _ _ _ Hsas).
  pose proof (scored_by_length _ _ _ Hcys).
  rewrite (three_objectives_run prop targets_file values_file df fs
             {| prop_values := ps;
                SA_scores := NP.neg <$> sas;
                cycle_scores := NP.neg <$> cys |}
             (zip_with NP.add
                (zip_with NP.add (normalized (NP.neg <$> sas)) (normalized ps))
                (normalized (NP.neg <$> cys)))).
  - done.
  - by apply score_loop_scored.
  - rewrite composite_same_shape; simpl; rewrite ?length_fmap; [done|lia..].
Qed.

Lemma three_objectives_inv (prop : option Mol → py np_float)
    (targets_file values_file : string) (df : DataFrame) (fs fs' : files) :
  three_objectives prop targets_file values_file df fs = (fs', Ok tt) →
  ∃ ps sas cys,
    fs' = <["cycle_scores.txt" := Vec (NP.neg <$> cys)]>
            (<["SA_scores.txt" := Vec (NP.neg <$> sas)]>
               (<[values_file := Vec ps]>
                  (<[targets_file :=
                       Vec (zip_with NP.add
                              (zip_with NP.add (normalized (NP.neg <$> sas))
                                 (normalized ps))
                              (normalized (NP.neg <$> cys)))]> fs)))
    ∧ length ps = length df ∧ length sas = length df ∧ length cys = length df
    ∧ ∀ i p sa cy, ps !! i = Some p → sas !! i = Some sa → cys !! i = Some cy →
        scored_row prop df i p sa cy.
Proof.
  unfold three_objectives, mbind, M_mbind, M_bind, lift.
  destruct (score_loop prop df) as [sc|] eqn:Hsc; [|done].
  apply score_loop_inv in Hsc as (ps & sas & cys & -> & Hlp & Hls & Hlc & Hrows).
  rewrite composite_same_shape by (simpl; rewrite ?length_fmap; lia).
  simpl. intros [= <-]. by exists ps, sas, cys.
Qed.

(** What [main] does after saving the embeddings, mode by mode. *)
Lemma main_logp (args : Args) (csv : DataFrame) (fs : files) :
  obj args = "logp" →
  main args csv fs
  = three_objectives logP "targets_logp.txt" "logP_values.txt"
      (load_smiles_df args csv)
      (<["latent_features.txt" := Mat (embed (load_smiles_df args csv))]> fs).
Proof. intros Hobj. unfold main. by rewrite Hobj. Qed.

Lemma main_qed (args : Args) (csv : DataFrame) (fs : files) :
  obj args = "qed" →
  main args csv fs
  = three_objectives qed "targets_qed.txt" "qed_values.txt"
      (load_smiles_df args csv)
      (<["latent_features.txt" := Mat (embed (load_smiles_df args csv))]> fs).
Proof. intros Hobj. unfold main. by rewrite Hobj. Qed.

Lemma main_qsar (args : Args) (csv : DataFrame) (fs : files) :
  obj args = "qsar" →
  main args csv fs
  = match qsar_targets (load_smiles_df args csv) with
    | Ok targets =>
        (<["targets_qsar.txt" := Vec targets]>
           (<["latent_features.txt" := Mat (embed (load_smiles_df args csv))]> fs),
         Ok tt)
    | Raise e =>
        (<["latent_features.txt" := Mat (embed (load_smiles_df args csv))]> fs,
         Raise e)
    end.
Proof.
  intros Hobj. unfold main. rewrite Hobj. simpl.
  unfold mbind, M_mbind, M_bind, lift, savetxt.
  by destruct (qsar_targets _).
Qed.

Lemma main_docking (args : Args) (csv : DataFrame) (fs : files) :
  obj args = "docking" →
  main args csv fs
  = (<["latent_features.txt" := Mat (embed (load_smiles_df args csv))]> fs,
     Raise NotImplementedError).
Proof. intros Hobj. unfold main. by rewrite Hobj. Qed.

End branches.

(** ** The fingerprint loop *)

Section qsar.
Context `{Chemistry, Models}.

Lemma fingerprint_step_eq (fps : list (list bool)) (r : Z * string) :
  fingerprint_step fps r
  = fp ← GetMorganFingerprintAsBitVect (MolFromSmiles r.2) 3 2048; Ok (fps ++ [fp]).
Proof. reflexivity. Qed.

Lemma fingerprint_loop_inv (df : DataFrame) (acc out : list (list bool)) :
  for_each fingerprint_step acc df = Ok out →
  ∃ fps, out = acc ++ fps
         ∧ scored_by (λ m, GetMorganFingerprintAsBitVect m 3 2048) df fps.
Proof.
  revert acc. induction df as [|r df IH]; intros acc Hout.
  - injection Hout as <-. exists []. rewrite app_nil_r.
    split; [done|]. unfold scored_by. constructor.
  - rewrite for_each_cons, fingerprint_step_eq in Hout.
    destruct (GetMorganFingerprintAsBitVect (MolFromSmiles r.2) 3 2048)
      as [fp|e] eqn:Hfp; [|done].
    simpl in Hout. apply IH in Hout as (fps & -> & Hfps).
    exists (fp :: fps). rewrite <- app_assoc. split; [done|].
    unfold scored_by. by constructor.
Qed.

Lemma fingerprint_loop_scored (df : DataFrame) (acc fps : list (list bool)) :
  scored_by (λ m, GetMorganFingerprintAsBitVect m 3 2048) df fps →
  for_each fingerprint_step acc df = Ok (acc ++ fps).
Proof.
  intros Hfps. revert acc.
  induction Hfps as [|r fp df fps Hfp _ IH]; intros acc.
  - by rewrite app_nil_r.
  - rewrite for_each_cons, fingerprint_step_eq, Hfp. simpl.
    by rewrite IH, <- app_assoc.
Qed.

Lemma vstack_inv {A : Type} (rows out : list (list A)) :
  vstack rows = Ok out → out = rows ∧ rows ≠ [].
Proof.
  destruct rows as [|r rs]; simpl; [done|].
  destruct (forallb _ rs); [|done]. by intros [= <-].
Qed.

Lemma vstack_same_width {A : Type} (rows : list (list A)) (n : nat) :
  rows ≠ [] → Forall (λ r, length r = n) rows → vstack rows = Ok rows.
Proof.
  destruct rows as [|r rs]; [done|]. intros _ [Hr Hrs]%Forall_cons. simpl.
  rewrite (proj2 (forallb_forall _ rs)); [done|].
  intros r' Hr'%list_elem_of_In. apply Nat.eqb_eq.
  rewrite Forall_forall in Hrs. rewrite Hr. by apply Hrs.
Qed.

Lemma column1_selected (probas : list (list np_float)) (col : list np_float) :
  Forall2 (λ row x, row !! 1%nat = Some x) probas col → column1 probas = Ok col.
Proof.
  induction 1 as [|row x probas col Hrow _ IH]; [done|].
  simpl. by rewrite Hrow, IH.
Qed.

Lemma fingerprints_inv (df : DataFrame) (fps : list (list bool)) :
  fingerprints df = Ok fps →
  df ≠ [] ∧ scored_by (λ m, GetMorganFingerprintAsBitVect m 3 2048) df fps.
Proof.
  unfold fingerprints.
  destruct (for_each fingerprint_step [] df) as [out|e] eqn:Hloop; [|done].
  simpl. intros [-> Hne]%vstack_inv.
  apply fingerprint_loop_inv in Hloop as (fps' & -> & Hfps).
  split; [|done]. intros ->. by inversion Hfps; subst.
Qed.

Lemma fingerprints_scored (df : DataFrame) (fps : list (list bool)) (n : nat) :
  df ≠ [] →
  scored_by (λ m, GetMorganFingerprintAsBitVect m 3 2048) df fps →
  Forall (λ fp, length fp = n) fps →
  fingerprints df = Ok fps.
Proof.
  intros Hdf Hfps Hn. unfold fingerprints.
  rewrite (fingerprint_loop_scored df [] fps Hfps). simpl.
  apply (vstack_same_width fps n); [|done].
  intros ->. apply Forall2_nil_inv_r in Hfps. done.
Qed.

Lemma qsar_targets_scored (df : DataFrame) (fps : list (list bool)) (n : nat)
    (probas : list (list np_float)) (col : list np_float) :
  df ≠ [] →
  scored_by (λ m, GetMorganFingerprintAsBitVect m 3 2048) df fps →
  Forall (λ fp, length fp = n) fps →
  predict_proba fps = Ok probas →
  Forall2 (λ row x, row !! 1%nat = Some x) probas col →
  qsar_targets df = Ok (normalized col).
Proof.
  intros Hdf Hfps Hn Hprobas Hcol. unfold qsar_targets.
  rewrite (fingerprints_scored df fps n) by done. simpl.
  rewrite Hprobas. simpl. by rewrite (column1_selected probas col).
Qed.

Lemma vstack_widths {A : Type} (rows out : list (list A)) :
  vstack rows = Ok out → ∃ n, Forall (λ r, length r = n) rows.
Proof.
  destruct rows as [|r rs]; simpl; [done|].
  destruct (forallb _ rs) eqn:Hrs; [|done]. intros _. exists (length r).
  constructor; [done|]. apply Forall_forall. intros r' Hr'.
  rewrite forallb_forall in Hrs. apply Nat.eqb_eq, Hrs. by apply list_elem_of_In.
Qed.

(** X24.  The fingerprint loop of the mode [qsar] completes exactly when
    the batch is not empty, RDKit returns a fingerprint for every row,
    asked with radius 3 and [nBits=2048] for the molecule parsed from the
    SMILES string of that row, and all the fingerprints have one length
    (which [np.vstack] checks; the script does not check that it is
    2048).  The matrix handed to the classifier then has those
    fingerprints as its rows, in the order of the table. *)
Theorem fingerprints_rows (df : DataFrame) (fps : list (list bool)) :
  fingerprints df = Ok fps
  ↔ df ≠ []
    ∧ Forall2 (λ r fp,
        GetMorganFingerprintAsBitVect (MolFromSmiles r.2) 3 2048 = Ok fp) df fps
    ∧ ∃ n, Forall (λ fp, length fp = n) fps.
Proof.
  split.
  - intros Hrun. destruct (fingerprints_inv df fps Hrun) as [Hdf Hfps].
    split; [done|]. split; [done|].
    unfold fingerprints in Hrun.
    destruct (for_each fingerprint_step [] df) as [rows|e]; [|done].
    simpl in Hrun. pose proof (vstack_widths _ _ Hrun) as [n Hn].
    apply vstack_inv in Hrun as [-> _]. by exists n.
  - intros (Hdf & Hfps & n & Hn). by apply (fingerprints_scored df fps n).
Qed.

End qsar.

(** ** A batch of identical scores *)

Section constant_batch.
#[local] Open Scope R_scope.

Lemma Rsum_replicate (n : nat) (c : R) : Rsum (replicate n c) = INR n * c.
Proof.
  induction n as [|n IH]; [simpl; lra|].
  rewrite S_INR. simpl. rewrite IH. lra.
Qed.

Lemma Rmean_replicate (n : nat) (c : R) : (0 < n)%nat → Rmean (replicate n c) = c.
Proof.
  intros Hn. unfold Rmean. rewrite Rsum_replicate, length_replicate.
  field. apply not_0_INR. lia.
Qed.

Lemma Rvar_replicate (n : nat) (c : R) : (0 < n)%nat → Rvar (replicate n c) = 0.
Proof.
  intros Hn. unfold Rvar.
  rewrite Rmean_replicate, fmap_replicate, Rsum_replicate, length_replicate by done.
  field. apply not_0_INR. lia.
Qed.

Lemma fold_add_PInf (n : nat) (a : np_float) :
  a ≠ NInf → a ≠ NaN → fold_left NP.add (replicate (S n) PInf) a = PInf.
Proof.
  revert a. induction n as [|n IH]; intros a Ha1 Ha2.
  - by destruct a.
  - change (replicate (S (S n)) PInf) with (PInf :: replicate (S n) PInf).
    simpl fold_left at 1. apply IH; by destruct a.
Qed.

Lemma fold_add_NInf (n : nat) (a : np_float) :
  a ≠ PInf → a ≠ NaN → fold_left NP.add (replicate (S n) NInf) a = NInf.
Proof.
  revert a. induction n as [|n IH]; intros a Ha1 Ha2.
  - by destruct a.
  - change (replicate (S (S n)) NInf) with (NInf :: replicate (S n) NInf).
    simpl fold_left at 1. apply IH; by destruct a.
Qed.

Lemma INR_not_negative (n : nat) : ¬ INR n < 0.
Proof. pose proof (pos_INR n). lra. Qed.

Lemma div_PInf_count (n : nat) : NP.div PInf (Fin (INR n)) = PInf.
Proof.
  unfold NP.div.
  destruct (Rlt_dec (INR n) 0) as [Hneg|_]; [by apply INR_not_negative in Hneg|].
  reflexivity.
Qed.

Lemma div_NInf_count (n : nat) : NP.div NInf (Fin (INR n)) = NInf.
Proof.
  unfold NP.div.
  destruct (Rlt_dec (INR n) 0) as [Hneg|_]; [by apply INR_not_negative in Hneg|].
  reflexivity.
Qed.

(** The deviation of the common score from the mean, over the standard
    deviation: [0/0] for a number, and [nan] already in the numerator for
    an infinite or undefined score. *)
Lemma zscore_of_constant (n : nat) (c : np_float) :
  (0 < n)%nat →
  NP.div (NP.sub c (NP.mean (replicate n c))) (NP.std (replicate n c)) = NaN.
Proof.
  intros Hn. destruct c as [c| | |].
  - rewrite <- (fmap_replicate Fin n c).
    assert (replicate n c ≠ []) as Hne by (destruct n; [lia|done]).
    rewrite mean_Fin, std_Fin, Rmean_replicate, Rvar_replicate, sqrt_0 by done.
    replace (NP.sub (Fin c) (Fin c)) with (Fin 0)
      by (simpl; f_equal; lra).
    apply div_zero_zero.
  - destruct n as [|n]; [lia|]. unfold NP.mean, NP.sum, NP.count.
    rewrite fold_add_PInf, div_PInf_count by done. reflexivity.
  - destruct n as [|n]; [lia|]. unfold NP.mean, NP.sum, NP.count.
    rewrite fold_add_NInf, div_NInf_count by done. reflexivity.
  - reflexivity.
Qed.

(** Normalising a batch of identical scores gives [nan] everywhere. *)
Lemma normalized_constant (n : nat) (c : np_float) :
  (0 < n)%nat → normalized (replicate n c) = replicate n NaN.
Proof.
  intros Hn. unfold normalized, NP.div_scalar, NP.sub_scalar.
  rewrite !fmap_replicate. by rewrite zscore_of_constant.
Qed.

Lemma zip_add_NaN_r (xs : list np_float) (n : nat) :
  length xs = n → zip_with NP.add xs (replicate n NaN) = replicate n NaN.
Proof.
  revert n. induction xs as [|x xs IH]; intros n <-; [done|].
  simpl. by rewrite add_NaN_r, IH.
Qed.

Lemma zip_add_NaN_l (xs : list np_float) (n : nat) :
  length xs = n → zip_with NP.add (replicate n NaN) xs = replicate n NaN.
Proof.
  revert n. induction xs as [|x xs IH]; intros n <-; [done|].
  simpl. by rewrite IH.
Qed.

(** A sum of three vectors of length [n] one of which is all [nan]. *)
Lemma sum_with_NaN_vector (a b c : list np_float) (n : nat) :
  length a = n → length b = n → length c = n →
  a = replicate n NaN ∨ b = replicate n NaN ∨ c = replicate n NaN →
  zip_with NP.add (zip_with NP.add a b) c = replicate n NaN.
Proof.
  intros Ha Hb Hc [->|[->| ->]].
  - by rewrite (zip_add_NaN_l b n), (zip_add_NaN_l c n).
  - by rewrite (zip_add_NaN_r a n), (zip_add_NaN_l c n).
  - apply zip_add_NaN_r. rewrite length_zip_with. lia.
Qed.

End constant_batch.

(** ** What the script writes *)

Section script.
Context `{Chemistry, Models}.

(** C2.  In the modes [logp] and [qed] the targets written are, element by
    element, the sum of the normalised SA, property and cycle scores; in
    the mode [qsar] they are the normalised probabilities, the only
    component.  In every scoring mode the targets have one entry per
    molecule of the batch.  The first three parts give the run on a table
    indexed from 0 whose molecules the collaborators score; the last part
    reads any completed [logp] or [qed] run back from its files. *)
Theorem targets_sum_of_normalized (args : Args) (csv : DataFrame) (fs : files) :
  (∀ ps sas cys,
     obj args = "logp" → range_indexed (load_smiles_df args csv) →
     scored_by logP (load_smiles_df args csv) ps →
     scored_by calculateScore (load_smiles_df args csv) sas →
     scored_by cycle_score (load_smiles_df args csv) cys →
     ∃ fs' targets,
       main args csv fs = (fs', Ok tt)
       ∧ fs' !! "targets_logp.txt" = Some (Vec targets)
       ∧ targets = zip_with NP.add
                     (zip_with NP.add (normalized (NP.neg <$> sas)) (normalized ps))
                     (normalized (NP.neg <$> cys))
       ∧ length targets = length (load_smiles_df args csv))
  ∧ (∀ qs sas cys,
     obj args = "qed" → range_indexed (load_smiles_df args csv) →
     scored_by qed (load_smiles_df args csv) qs →
     scored_by calculateScore (load_smiles_df args csv) sas →
     scored_by cycle_score (load_smiles_df args csv) cys →
     ∃ fs' targets,
       main args csv fs = (fs', Ok tt)
       ∧ fs' !! "targets_qed.txt" = Some (Vec targets)
       ∧ targets = zip_with NP.add
                     (zip_with NP.add (normalized (NP.neg <$> sas)) (normalized qs))
                     (normalized (NP.neg <$> cys))
       ∧ length targets = length (load_smiles_df args csv))
  ∧ (∀ fps n probas col,
     obj args = "qsar" → load_smiles_df args csv ≠ [] →
     scored_by (λ m, GetMorganFingerprintAsBitVect m 3 2048)
       (load_smiles_df args csv) fps →
     Forall (λ fp, length fp = n) fps →
     predict_proba fps = Ok probas → length probas = length fps →
     Forall2 (λ row x, row !! 1%nat = Some x) probas col →
     ∃ fs' targets,
       main args csv fs = (fs', Ok tt)
       ∧ fs' !! "targets_qsar.txt" = Some (Vec targets)
       ∧ targets = normalized col
       ∧ length targets = length (load_smiles_df args csv))
  ∧ (∀ fs' targets_file values_file,
     (obj args = "logp"
      ∧ targets_file = "targets_logp.txt" ∧ values_file = "logP_values.txt")
     ∨ (obj args = "qed"
        ∧ targets_file = "targets_qed.txt" ∧ values_file = "qed_values.txt") →
     main args csv fs = (fs', Ok tt) →
     ∃ values sa cycle,
       fs' !! values_file = Some (Vec values)
       ∧ fs' !! "SA_scores.txt" = Some (Vec sa)
       ∧ fs' !! "cycle_scores.txt" = Some (Vec cycle)
       ∧ fs' !! targets_file
         = Some (Vec (zip_with NP.add
                        (zip_with NP.add (normalized sa) (normalized values))
                        (normalized cycle)))
       ∧ length values = length (load_smiles_df args csv)
       ∧ length sa = length (load_smiles_df args csv)
       ∧ length cycle = length (load_smiles_df args csv)).
Proof.
  split; [|split; [|split]].
  - intros ps sas cys Hobj Hdf Hps Hsas Hcys.
    rewrite (main_logp args csv fs Hobj).
    rewrite (three_objectives_scored logP _ _ _ _ ps sas cys) by done.
    eexists _, _. split; [done|]. read_file. split; [done|]. split; [done|].
    rewrite !length_zip_with, !length_normalized, !length_fmap.
    rewrite (scored_by_length _ _ _ Hps), (scored_by_length _ _ _ Hsas),
      (scored_by_length _ _ _ Hcys). lia.
  - intros qs sas cys Hobj Hdf Hqs Hsas Hcys.
    rewrite (main_qed args csv fs Hobj).
    rewrite (three_objectives_scored qed _ _ _ _ qs sas cys) by done.
    eexists _, _. split; [done|]. read_file. split; [done|]. split; [done|].
    rewrite !length_zip_with, !length_normalized, !length_fmap.
    rewrite (scored_by_length _ _ _ Hqs), (scored_by_length _ _ _ Hsas),
      (scored_by_length _ _ _ Hcys). lia.
  - intros fps n probas col Hobj Hdf Hfps Hn Hprobas Hlen Hcol.
    rewrite (main_qsar args csv fs Hobj).
    rewrite (qsar_targets_scored _ fps n probas col) by done.
    eexists _, _. split; [done|]. read_file. split; [done|]. split; [done|].
    rewrite length_normalized, <- (Forall2_length _ _ _ Hcol), Hlen.
    by apply scored_by_length in Hfps.
  - intros fs' targets_file values_file Hmode Hrun.
    destruct Hmode as [(Hobj & -> & ->)|(Hobj & -> & ->)].
    + rewrite (main_logp args csv fs Hobj) in Hrun.
      apply three_objectives_inv
        in Hrun as (ps & sas & cys & -> & Hlp & Hls & Hlc & _).
      exists ps, (NP.neg <$> sas), (NP.neg <$> cys).
      rewrite !length_fmap. split_and!; [by read_file..|done|done|done].
    + rewrite (main_qed args csv fs Hobj) in Hrun.
      apply three_objectives_inv
        in Hrun as (ps & sas & cys & -> & Hlp & Hls & Hlc & _).
      exists ps, (NP.neg <$> sas), (NP.neg <$> cys).
      rewrite !length_fmap. split_and!; [by read_file..|done|done|done].
Qed.

(** C6.  In the modes [logp] and [qed] the entry of [SA_scores.txt] for a
    molecule is the negation of what [calculateScore] returned for it, and
    the entry of [cycle_scores.txt] is the negation of what [cycle_score]
    returned for it: so it is for every run that completes, and a run
    completes on a table indexed from 0 whose molecules are scored. *)
Theorem stored_scores_negated (args : Args) (csv : DataFrame) (fs : files)
    (prop : option Mol → py np_float) :
  (obj args = "logp" ∧ prop = logP) ∨ (obj args = "qed" ∧ prop = qed) →
  (∀ fs', main args csv fs = (fs', Ok tt) →
     ∃ stored_sa stored_cycle,
       fs' !! "SA_scores.txt" = Some (Vec stored_sa)
       ∧ fs' !! "cycle_scores.txt" = Some (Vec stored_cycle)
       ∧ length stored_sa = length (load_smiles_df args csv)
       ∧ length stored_cycle = length (load_smiles_df args csv)
       ∧ ∀ i, (i < length (load_smiles_df args csv))%nat →
           ∃ p sa cy,
             scored_row prop (load_smiles_df args csv) i p sa cy
             ∧ stored_sa !! i = Some (NP.neg sa)
             ∧ stored_cycle !! i = Some (NP.neg cy))
  ∧ (∀ ps sas cys,
     range_indexed (load_smiles_df args csv) →
     scored_by prop (load_smiles_df args csv) ps →
     scored_by calculateScore (load_smiles_df args csv) sas →
     scored_by cycle_score (load_smiles_df args csv) cys →
     ∃ fs' stored_sa stored_cycle,
       main args csv fs = (fs', Ok tt)
       ∧ fs' !! "SA_scores.txt" = Some (Vec stored_sa)
       ∧ fs' !! "cycle_scores.txt" = Some (Vec stored_cycle)
       ∧ ∀ i r, load_smiles_df args csv !! i = Some r →
           ∃ sa cy,
             calculateScore (MolFromSmiles r.2) = Ok sa
             ∧ cycle_score (MolFromSmiles r.2) = Ok cy
             ∧ stored_sa !! i = Some (NP.neg sa)
             ∧ stored_cycle !! i = Some (NP.neg cy)).
Proof.
  intros Hmode. split.
  - intros fs' Hrun.
    assert (∃ targets_file values_file,
              three_objectives prop targets_file values_file
                (load_smiles_df args csv)
                (<["latent_features.txt" :=
                     Mat (embed (load_smiles_df args csv))]> fs)
              = (fs', Ok tt)) as (targets_file & values_file & Hbranch).
    { destruct Hmode as [[Hobj ->]|[Hobj ->]].
      - rewrite (main_logp args csv fs Hobj) in Hrun. by eexists _, _.
      - rewrite (main_qed args csv fs Hobj) in Hrun. by eexists _, _. }
    apply three_objectives_inv
      in Hbranch as (ps & sas & cys & -> & Hlp & Hls & Hlc & Hrows).
    exists (NP.neg <$> sas), (NP.neg <$> cys). rewrite !length_fmap.
    split_and!; [by read_file..|done|done|].
    intros i Hi.
    destruct (lookup_lt_is_Some_2 ps i) as [p Hp]; [lia|].
    destruct (lookup_lt_is_Some_2 sas i) as [sa Hsa]; [lia|].
    destruct (lookup_lt_is_Some_2 cys i) as [cy Hcy]; [lia|].
    exists p, sa, cy. rewrite !list_lookup_fmap, Hsa, Hcy.
    split; [by apply Hrows|done].
  - intros ps sas cys Hdf Hps Hsas Hcys.
    assert (∀ i r, load_smiles_df args csv !! i = Some r →
              ∃ sa cy,
                calculateScore (MolFromSmiles r.2) = Ok sa
                ∧ cycle_score (MolFromSmiles r.2) = Ok cy
                ∧ (NP.neg <$> sas) !! i = Some (NP.neg sa)
                ∧ (NP.neg <$> cys) !! i = Some (NP.neg cy)) as Hneg.
    { intros i r Hr.
      destruct (scored_by_lookup _ _ _ _ _ Hsas Hr) as (sa & Hsa & Hsar).
      destruct (scored_by_lookup _ _ _ _ _ Hcys Hr) as (cy & Hcy & Hcyr).
      exists sa, cy. rewrite !list_lookup_fmap, Hsa, Hcy. done. }
    destruct Hmode as [[Hobj ->]|[Hobj ->]].
    + rewrite (main_logp args csv fs Hobj).
      rewrite (three_objectives_scored logP _ _ _ _ ps sas cys) by done.
      eexists _, _, _. split; [done|]. read_file. done.
    + rewrite (main_qed args csv fs Hobj).
      rewrite (three_objectives_scored qed _ _ _ _ ps sas cys) by done.
      eexists _, _, _. split; [done|]. read_file. done.
Qed.

(** C3 (as amended).  In the mode [docking] the script raises
    [NotImplementedError], and it does so after the embeddings have been
    written: [latent_features.txt] is produced, every other file of the
    output directory is left as it was. *)
Theorem docking_raises_after_embeddings (args : Args) (csv : DataFrame) (fs : files) :
  obj args = "docking" →
  ∃ fs',
    main args csv fs = (fs', Raise NotImplementedError)
    ∧ fs' !! "latent_features.txt" = Some (Mat (embed (load_smiles_df args csv)))
    ∧ ∀ file, file ≠ "latent_features.txt" → fs' !! file = fs !! file.
Proof.
  intros Hobj. rewrite (main_docking args csv fs Hobj).
  eexists. split; [done|]. split; [by read_file|].
  intros file Hfile. by rewrite lookup_insert_ne.
Qed.

(** C4 (as amended).  A batch in which every molecule has the same score
    for some component is not detected: the script normalises it like any
    other batch, completes without an exception and writes the targets,
    one per molecule.  When the common score is 0, or is not a finite
    number, the targets written are [nan] for every molecule.  For another
    common score the z-scores depend on how float64 rounds the mean: they
    are [nan] for the scores [0, 0, 0] and [-1] for [0.1, 0.1, 0.1]. *)
Theorem zero_variance_not_rejected (args : Args) (csv : DataFrame) (fs : files) :
  (∀ prop targets_file ps sas cys c,
     (obj args = "logp" ∧ prop = logP ∧ targets_file = "targets_logp.txt")
     ∨ (obj args = "qed" ∧ prop = qed ∧ targets_file = "targets_qed.txt") →
     range_indexed (load_smiles_df args csv) →
     load_smiles_df args csv ≠ [] →
     scored_by prop (load_smiles_df args csv) ps →
     scored_by calculateScore (load_smiles_df args csv) sas →
     scored_by cycle_score (load_smiles_df args csv) cys →
     ps = replicate (length (load_smiles_df args csv)) c
     ∨ sas = replicate (length (load_smiles_df args csv)) c
     ∨ cys = replicate (length (load_smiles_df args csv)) c →
     ∃ fs' targets,
       main args csv fs = (fs', Ok tt)
       ∧ fs' !! targets_file = Some (Vec targets)
       ∧ length targets = length (load_smiles_df args csv)
       ∧ (c = Fin 0 ∨ is_finite c = false →
          targets = replicate (length (load_smiles_df args csv)) NaN))
  ∧ (∀ fps n probas c,
     obj args = "qsar" → load_smiles_df args csv ≠ [] →
     scored_by (λ m, GetMorganFingerprintAsBitVect m 3 2048)
       (load_smiles_df args csv) fps →
     Forall (λ fp, length fp = n) fps →
     predict_proba fps = Ok probas →
     Forall2 (λ row x, row !! 1%nat = Some x) probas
       (replicate (length (load_smiles_df args csv)) c) →
     ∃ fs' targets,
       main args csv fs = (fs', Ok tt)
       ∧ fs' !! "targets_qsar.txt" = Some (Vec targets)
       ∧ length targets = length (load_smiles_df args csv)
       ∧ (c = Fin 0 ∨ is_finite c = false →
          targets = replicate (length (load_smiles_df args csv)) NaN))
  ∧ F64.normalized [PrimFloat.zero; PrimFloat.zero; PrimFloat.zero]
    = [PrimFloat.nan; PrimFloat.nan; PrimFloat.nan]
  ∧ F64.normalized [F64.tenth; F64.tenth; F64.tenth]
    = [F64.neg_one; F64.neg_one; F64.neg_one].
Proof.
  set (df := load_smiles_df args csv).
  assert (∀ xs : list np_float, df ≠ [] → length xs = length df →
            (0 < length xs)%nat) as Hpos.
  { intros xs Hne ->. destruct df; [done|simpl; lia]. }
  split; [|split; [|split; vm_compute; reflexivity]].
  - intros prop targets_file ps sas cys c Hmode Hdf Hne Hps Hsas Hcys Hconst.
    pose proof (scored_by_length _ _ _ Hps) as Hlps.
    pose proof (scored_by_length _ _ _ Hsas) as Hlsas.
    pose proof (scored_by_length _ _ _ Hcys) as Hlcys.
    assert (zip_with NP.add
              (zip_with NP.add (normalized (NP.neg <$> sas)) (normalized ps))
              (normalized (NP.neg <$> cys)) = replicate (length df) NaN) as Hnan.
    { apply sum_with_NaN_vector;
        rewrite ?length_normalized, ?length_fmap; [done..|].
      destruct Hconst as [->|[->| ->]].
      - right; left. apply normalized_constant. by rewrite <- Hlps; apply Hpos.
      - left. rewrite fmap_replicate. apply normalized_constant.
        by rewrite <- Hlsas; apply Hpos.
      - right; right. rewrite fmap_replicate. apply normalized_constant.
        by rewrite <- Hlcys; apply Hpos. }
    destruct Hmode as [(Hobj & -> & ->)|(Hobj & -> & ->)].
    + rewrite (main_logp args csv fs Hobj). fold df.
      rewrite (three_objectives_scored logP _ _ _ _ ps sas cys) by done.
      eexists _, _. split; [done|]. split; [by read_file|].
      rewrite Hnan. by rewrite length_replicate.
    + rewrite (main_qed args csv fs Hobj). fold df.
      rewrite (three_objectives_scored qed _ _ _ _ ps sas cys) by done.
      eexists _, _. split; [done|]. split; [by read_file|].
      rewrite Hnan. by rewrite length_replicate.
  - intros fps n probas c Hobj Hne Hfps Hn Hprobas Hcol.
    rewrite (main_qsar args csv fs Hobj). fold df.
    rewrite (qsar_targets_scored df fps n probas _ Hne Hfps Hn Hprobas Hcol).
    eexists _, _. split; [done|]. split; [by read_file|].
    rewrite normalized_constant by (destruct df; [done|simpl; lia]).
    by rewrite length_replicate.
Qed.

(** C5 (as amended).  In the modes [logp] and [qed] the script writes the
    targets and each of the three score lists, as they were before the
    normalisation, to four files of their own.  In the mode [qsar] it
    writes the normalised targets to [targets_qsar.txt] and nothing else
    besides the embeddings. *)
Theorem files_written_by_mode (args : Args) (csv : DataFrame) (fs : files) :
  (∀ prop targets_file values_file ps sas cys,
     (obj args = "logp" ∧ prop = logP
      ∧ targets_file = "targets_logp.txt" ∧ values_file = "logP_values.txt")
     ∨ (obj args = "qed" ∧ prop = qed
        ∧ targets_file = "targets_qed.txt" ∧ values_file = "qed_values.txt") →
     range_indexed (load_smiles_df args csv) →
     scored_by prop (load_smiles_df args csv) ps →
     scored_by calculateScore (load_smiles_df args csv) sas →
     scored_by cycle_score (load_smiles_df args csv) cys →
     ∃ fs',
       main args csv fs = (fs', Ok tt)
       ∧ fs' !! targets_file
         = Some (Vec (zip_with NP.add
                        (zip_with NP.add (normalized (NP.neg <$> sas)) (normalized ps))
                        (normalized (NP.neg <$> cys))))
       ∧ fs' !! values_file = Some (Vec ps)
       ∧ fs' !! "SA_scores.txt" = Some (Vec (NP.neg <$> sas))
       ∧ fs' !! "cycle_scores.txt" = Some (Vec (NP.neg <$> cys)))
  ∧ (∀ fps n probas col,
     obj args = "qsar" → load_smiles_df args csv ≠ [] →
     scored_by (λ m, GetMorganFingerprintAsBitVect m 3 2048)
       (load_smiles_df args csv) fps →
     Forall (λ fp, length fp = n) fps →
     predict_proba fps = Ok probas →
     Forall2 (λ row x, row !! 1%nat = Some x) probas col →
     ∃ fs',
       main args csv fs = (fs', Ok tt)
       ∧ fs' !! "targets_qsar.txt" = Some (Vec (normalized col))
       ∧ ∀ file, file ≠ "latent_features.txt" → file ≠ "targets_qsar.txt" →
           fs' !! file = fs !! file).
Proof.
  split.
  - intros prop targets_file values_file ps sas cys Hmode Hdf Hps Hsas Hcys.
    destruct Hmode as [(Hobj & -> & -> & ->)|(Hobj & -> & -> & ->)].
    + rewrite (main_logp args csv fs Hobj).
      rewrite (three_objectives_scored logP _ _ _ _ ps sas cys) by done.
      eexists. split; [done|]. split_and!; by read_file.
    + rewrite (main_qed args csv fs Hobj).
      rewrite (three_objectives_scored qed _ _ _ _ ps sas cys) by done.
      eexists. split; [done|]. split_and!; by read_file.
  - intros fps n probas col Hobj Hne Hfps Hn Hprobas Hcol.
    rewrite (main_qsar args csv fs Hobj).
    rewrite (qsar_targets_scored _ fps n probas col) by done.
    eexists. split; [done|]. split; [by read_file|].
    intros file Hlatent Htargets. by rewrite !lookup_insert_ne.
Qed.

(** C7.  With a positive cutoff [n] the script works on the first [n] rows
    of the input, on all rows when there are fewer, and the rows after
    the [n]-th have no influence on what it does; with a cutoff that is
    not positive it works on every row. *)
Theorem cutoff_first_rows (args : Args) (csv : DataFrame) (fs : files) :
  ((0 < cutoff args)%Z →
     load_smiles_df args csv = take (Z.to_nat (cutoff args)) csv
     ∧ length (load_smiles_df args csv)
       = Nat.min (Z.to_nat (cutoff args)) (length csv)
     ∧ main args csv fs = main args (take (Z.to_nat (cutoff args)) csv) fs)
  ∧ ((cutoff args ≤ 0)%Z → load_smiles_df args csv = csv)
  ∧ (main args csv fs).1 !! "latent_features.txt"
    = Some (Mat (embed (load_smiles_df args csv))).
Proof.
  split; [|split].
  - intros Hpos.
    assert (∀ rows, load_smiles_df args rows = take (Z.to_nat (cutoff args)) rows)
      as Hload.
    { intros rows. unfold load_smiles_df. by rewrite bool_decide_eq_true_2. }
    split; [apply Hload|]. split; [by rewrite Hload, length_take|].
    unfold main. by rewrite !Hload, take_take, Nat.min_id.
  - intros Hle. unfold load_smiles_df.
    by rewrite bool_decide_eq_false_2 by lia.
  - unfold main. cbv zeta.
    set (df := load_smiles_df args csv).
    unfold mbind, M_mbind, M_bind, savetxt at 1.
    repeat case_bool_decide;
      unfold three_objectives, mbind, M_mbind, M_bind, lift, savetxt, raise,
        mret, M_mret, M_ret;
      repeat (match goal with |- context [match ?x with _ => _ end] =>
                destruct x end);
      simpl; by read_file.
Qed.

End script.

(** ** [QED_oracle] *)

Section oracle.
Context `{Chemistry}.

Lemma enumerate_snoc {A : Type} (xs : list A) (x : A) :
  enumerate (xs ++ [x]) = enumerate xs ++ [(length xs, x)].
Proof. unfold enumerate. rewrite imap_app. simpl. by rewrite Nat.add_0_r. Qed.

(** After the entries of [smiles] the tensor holds their values, and
    zeros from there on. *)
Lemma QED_oracle_loop (smiles : list string) (n : nat) :
  (length smiles ≤ n)%nat →
  for_each QED_oracle_step (replicate n PrimFloat.zero) (enumerate smiles)
  = Ok (((λ s, match MolFromSmiles s with
               | Some m => F64.to_float32 (QED_qed m)
               | None => PrimFloat.zero
               end) <$> smiles)
        ++ replicate (n - length smiles) PrimFloat.zero).
Proof.
  induction smiles as [|s smiles IH] using rev_ind; intros Hn.
  - simpl. by rewrite Nat.sub_0_r.
  - rewrite length_app in Hn. simpl in Hn.
    rewrite enumerate_snoc, for_each_app, IH by lia. simpl.
    rewrite fmap_app, length_app, <- app_assoc. simpl.
    replace (n - length smiles)%nat with (S (n - (length smiles + 1))) by lia.
    destruct (MolFromSmiles s) as [m|]; [|done].
    unfold tensor_setitem.
    rewrite bool_decide_eq_true_2
      by (rewrite length_app, length_fmap; simpl; lia).
    f_equal. rewrite insert_app_r_alt by (by rewrite length_fmap).
    by rewrite length_fmap, Nat.sub_diag.
Qed.

(** C9 (as amended).  [QED_oracle] returns, without raising, a tensor
    with one entry per SMILES string of its argument: 0 where the string
    does not parse, and where it does the QED of the molecule converted
    to single precision, the element type of the tensor. *)
Theorem QED_oracle_float32_entries (smiles : list string) :
  ∃ t, QED_oracle smiles = Ok t
    ∧ length t = length smiles
    ∧ ∀ i s, smiles !! i = Some s →
        (MolFromSmiles s = None → t !! i = Some PrimFloat.zero)
        ∧ (∀ m, MolFromSmiles s = Some m →
             t !! i = Some (F64.to_float32 (QED_qed m))).
Proof.
  unfold QED_oracle. cbv zeta. rewrite QED_oracle_loop by done.
  rewrite Nat.sub_diag, app_nil_r. eexists. split; [done|].
  split; [by rewrite length_fmap|].
  intros i s Hs. rewrite list_lookup_fmap, Hs. simpl.
  split; [by intros ->|]. by intros m ->.
Qed.

End oracle.

(** ** [Dumper.dump] *)

Section dump.
Context {dict : Type} (json_dumps : dict → Z → outcome string)
  (refused : string → gmap string string → option error).

(** C10 (as amended).  When its [dumping_path] argument and the
    [dumping_path] of the instance are both [None], [dump] raises the
    [ValueError] of its own and writes nothing.  Otherwise the path is
    the one of the argument or, failing that, of the instance, and the
    dictionary the one given or, failing that, the one of the instance:
    if [json.dumps] and [open] succeed, [dump] writes the JSON text and a
    line feed to that path and returns; if one of them raises, that
    exception leaves [dump] and nothing is written, and [dump] raises
    nothing else. *)
Theorem dump_outcomes (self : Dumper) (dict_to_dump : option dict)
    (dumping_path_arg : option string) (fs : gmap string string) :
  (dumping_path_arg = None ∧ dumping_path self = None →
   dump json_dumps refused self dict_to_dump dumping_path_arg fs
   = (fs, Throw (Builtin (ValueError "Where should I dump ? No dump_path provided"))))
  ∧ (∀ path,
     from_option Some (dumping_path self) dumping_path_arg = Some path →
     (∀ j, json_dumps (default (dic self) dict_to_dump) 4 = Return j →
           open_w refused path fs = Return tt →
           dump json_dumps refused self dict_to_dump dumping_path_arg fs
           = (<[path := j +:+ String (Ascii.ascii_of_nat 10) EmptyString]> fs,
              Return tt))
     ∧ (∀ fs' e,
          dump json_dumps refused self dict_to_dump dumping_path_arg fs
          = (fs', Throw e) →
          fs' = fs
          ∧ (json_dumps (default (dic self) dict_to_dump) 4 = Throw e
             ∨ open_w refused path fs = Throw e))
     ∧ (∀ fs',
          dump json_dumps refused self dict_to_dump dumping_path_arg fs
          = (fs', Return tt) →
          ∃ j, json_dumps (default (dic self) dict_to_dump) 4 = Return j
               ∧ open_w refused path fs = Return tt
               ∧ fs' = <[path := j +:+ String (Ascii.ascii_of_nat 10) EmptyString]> fs)).
Proof.
  split.
  - intros [-> Hself]. unfold dump. by rewrite Hself.
  - intros path Hpath.
    assert (dump json_dumps refused self dict_to_dump dumping_path_arg fs
            = match json_dumps (default (dic self) dict_to_dump) 4 with
              | Throw e => (fs, Throw e)
              | Return j =>
                  match open_w refused path fs with
                  | Throw e => (fs, Throw e)
                  | Return _ => (print_to path j fs, Return tt)
                  end
              end) as ->.
    { unfold dump.
      destruct dumping_path_arg as [p|], self as [[q|] d], dict_to_dump as [d'|];
        simplify_eq/=; done. }
    destruct (json_dumps (default (dic self) dict_to_dump) 4) as [j|e].
    + destruct (open_w refused path fs) as [[]|e].
      * split; [by intros ? [= <-] _|]. split; [done|].
        intros fs' [= <-]. by exists j.
      * split; [done|]. split; [|done].
        intros fs' e' [= <- <-]. split; [done|by right].
    + split; [done|]. split; [|done].
      intros fs' e' [= <- <-]. split; [done|by left].
Qed.

End dump.

(** ** Runs of the script in the small world *)

Section toy_runs.
#[local] Existing Instance Toy.chemistry.
#[local] Existing Instance Toy.models.

Lemma toy_range_indexed (mode : string) :
  range_indexed (load_smiles_df (Toy.args_for mode 3) Toy.csv).
Proof. reflexivity. Qed.

Lemma toy_sizes (mode : string) :
  scored_by Toy.size (load_smiles_df (Toy.args_for mode 3) Toy.csv)
    [Fin (INR 1); Fin (INR 2); Fin (INR 3)].
Proof. repeat constructor. Qed.

Lemma toy_no_large_ring (mode : string) :
  scored_by Toy.no_large_ring (load_smiles_df (Toy.args_for mode 3) Toy.csv)
    (replicate 3 (Fin 0)).
Proof. repeat constructor. Qed.

Lemma toy_fingerprints (mode : string) :
  scored_by (λ m, GetMorganFingerprintAsBitVect m 3 2048)
    (load_smiles_df (Toy.args_for mode 3) Toy.csv)
    [replicate 2048 true; replicate 2048 false; replicate 2048 false].
Proof. repeat constructor. Qed.

Lemma toy_fingerprint_widths :
  Forall (λ fp : list bool, length fp = 2048%nat)
    [replicate 2048 true; replicate 2048 false; replicate 2048 false].
Proof. repeat constructor; apply length_replicate. Qed.

Lemma toy_probabilities :
  Forall2 (λ (row : list np_float) x, row !! 1%nat = Some x)
    (Toy.classify <$>
       [replicate 2048 true; replicate 2048 false; replicate 2048 false])
    [Fin 1; Fin 0; Fin 0].
Proof. repeat constructor. Qed.

Lemma toy_predict_proba (fps : list (list bool)) :
  predict_proba fps = Ok (Toy.classify <$> fps).
Proof. reflexivity. Qed.

Lemma toy_batch_not_empty (mode : string) :
  load_smiles_df (Toy.args_for mode 3) Toy.csv ≠ [].
Proof. discriminate. Qed.

Lemma toy_logp_run :
  main (Toy.args_for "logp" 3) Toy.csv ∅
  = (<["cycle_scores.txt" := Vec (replicate 3 (Fin (- 0)))]>
       (<["SA_scores.txt" := Vec [Fin (- INR 1); Fin (- INR 2); Fin (- INR 3)]]>
          (<["logP_values.txt" := Vec [Fin (INR 1); Fin (INR 2); Fin (INR 3)]]>
             (<["targets_logp.txt" := Vec (replicate 3 NaN)]>
                (<["latent_features.txt" :=
                     Mat [[Fin (INR 1)]; [Fin (INR 2)]; [Fin (INR 3)]]]> ∅)))),
     Ok tt).
Proof.
  rewrite main_logp by done.
  rewrite (three_objectives_scored logP _ _ _ _
             [Fin (INR 1); Fin (INR 2); Fin (INR 3)]
             [Fin (INR 1); Fin (INR 2); Fin (INR 3)]
             (replicate 3 (Fin 0)))
    by first [apply toy_range_indexed|apply toy_sizes|apply toy_no_large_ring].
  rewrite (sum_with_NaN_vector _ _ _ 3); [done..|].
  right; right. rewrite fmap_replicate. apply normalized_constant. lia.
Qed.

Lemma toy_qsar_run :
  main (Toy.args_for "qsar" 3) Toy.csv ∅
  = (<["targets_qsar.txt" := Vec (normalized [Fin 1; Fin 0; Fin 0])]>
       (<["latent_features.txt" :=
            Mat [[Fin (INR 1)]; [Fin (INR 2)]; [Fin (INR 3)]]]> ∅),
     Ok tt).
Proof.
  rewrite main_qsar by done.
  rewrite (qsar_targets_scored _ _ 2048 _ [Fin 1; Fin 0; Fin 0]
             (toy_batch_not_empty "qsar") (toy_fingerprints "qsar")
             toy_fingerprint_widths
             (toy_predict_proba _) toy_probabilities).
  reflexivity.
Qed.

Lemma targets_sum_of_normalized_witness :
  ∃ fs' targets,
    main (Toy.args_for "logp" 3) Toy.csv ∅ = (fs', Ok tt)
    ∧ fs' !! "targets_logp.txt" = Some (Vec targets)
    ∧ length targets = 3%nat.
Proof.
  destruct (proj1 (targets_sum_of_normalized (Toy.args_for "logp" 3) Toy.csv ∅)
              [Fin (INR 1); Fin (INR 2); Fin (INR 3)]
              [Fin (INR 1); Fin (INR 2); Fin (INR 3)]
              (replicate 3 (Fin 0))
              eq_refl (toy_range_indexed "logp") (toy_sizes "logp")
              (toy_sizes "logp") (toy_no_large_ring "logp"))
    as (fs' & targets & Hrun & Hfile & _ & Hlen).
  exists fs', targets. split; [exact Hrun|]. split; [exact Hfile|exact Hlen].
Defined.

(** The claim C3 fails: in the mode [docking] the run leaves a file. *)
Lemma docking_leaves_latent_features :
  (main (Toy.args_for "docking" 3) Toy.csv ∅).2 = Raise NotImplementedError
  ∧ (main (Toy.args_for "docking" 3) Toy.csv ∅).1 !! "latent_features.txt"
    = Some (Mat [[Fin (INR 1)]; [Fin (INR 2)]; [Fin (INR 3)]])
  ∧ (main (Toy.args_for "docking" 3) Toy.csv ∅).1 ≠ ∅.
Proof.
  rewrite main_docking by done. simpl. split; [done|].
  split; [by rewrite lookup_insert_eq|]. apply insert_non_empty.
Qed.

Lemma docking_raises_after_embeddings_witness :
  ∃ fs',
    main (Toy.args_for "docking" 3) Toy.csv ∅ = (fs', Raise NotImplementedError)
    ∧ fs' !! "targets_logp.txt" = None.
Proof.
  destruct (docking_raises_after_embeddings (Toy.args_for "docking" 3) Toy.csv ∅
              eq_refl) as (fs' & Hrun & _ & Hother).
  exists fs'. split; [exact Hrun|].
  rewrite Hother; [apply lookup_empty|discriminate].
Defined.

(** The claim C4 fails: no molecule of the batch has a large ring, the
    cycle scores are all zero, and the run completes with [nan] targets. *)
Lemma zero_variance_batch_accepted :
  (main (Toy.args_for "logp" 3) Toy.csv ∅).2 = Ok tt
  ∧ (main (Toy.args_for "logp" 3) Toy.csv ∅).1 !! "cycle_scores.txt"
    = Some (Vec [Fin (- 0); Fin (- 0); Fin (- 0)])
  ∧ (main (Toy.args_for "logp" 3) Toy.csv ∅).1 !! "targets_logp.txt"
    = Some (Vec [NaN; NaN; NaN]).
Proof. rewrite toy_logp_run. simpl. split_and!; by read_file. Qed.

Lemma zero_variance_not_rejected_witness :
  ∃ fs' targets,
    main (Toy.args_for "logp" 3) Toy.csv ∅ = (fs', Ok tt)
    ∧ fs' !! "targets_logp.txt" = Some (Vec targets)
    ∧ targets = [NaN; NaN; NaN].
Proof.
  destruct (proj1 (zero_variance_not_rejected (Toy.args_for "logp" 3) Toy.csv ∅)
              logP "targets_logp.txt"
              [Fin (INR 1); Fin (INR 2); Fin (INR 3)]
              [Fin (INR 1); Fin (INR 2); Fin (INR 3)]
              (replicate 3 (Fin 0)) (Fin 0))
    as (fs' & targets & Hrun & Hfile & _ & Hnan).
  - left. split; [reflexivity|]. split; reflexivity.
  - apply toy_range_indexed.
  - apply toy_batch_not_empty.
  - apply toy_sizes.
  - apply toy_sizes.
  - apply toy_no_large_ring.
  - right; right. reflexivity.
  - exists fs', targets. split; [exact Hrun|]. split; [exact Hfile|].
    apply Hnan. left. reflexivity.
Defined.

(** The probabilities [1, 0, 0] have mean [1/3]: normalising changes them. *)
Lemma toy_probabilities_normalized :
  normalized [Fin 1; Fin 0; Fin 0] ≠ [Fin 1; Fin 0; Fin 0].
Proof.
  change [Fin 1; Fin 0; Fin 0] with (Fin <$> [1; 0; 0]%R).
  assert (Rvar [1; 0; 0]%R = (2 / 9)%R) as Hvar
    by (unfold Rvar, Rmean; simpl; field).
  assert (Rmean [1; 0; 0]%R = (1 / 3)%R) as Hmean
    by (unfold Rmean; simpl; field).
  rewrite normalized_Fin; [|done|rewrite Hvar; lra].
  rewrite Hmean. intros [= _ Hsecond _].
  apply Rmult_integral in Hsecond as [Hnum|Hinv]; [lra|].
  revert Hinv. apply Rinv_neq_0_compat, sqrt_Rvar_nonzero; [done|].
  rewrite Hvar. lra.
Qed.

(** The claim C5 fails: in the mode [qsar] the only vector written is the
    normalised one, and the probabilities themselves are in no file. *)
Lemma qsar_probabilities_not_written :
  (main (Toy.args_for "qsar" 3) Toy.csv ∅).2 = Ok tt
  ∧ (main (Toy.args_for "qsar" 3) Toy.csv ∅).1 !! "targets_qsar.txt"
    = Some (Vec (normalized [Fin 1; Fin 0; Fin 0]))
  ∧ (∀ file v,
      (main (Toy.args_for "qsar" 3) Toy.csv ∅).1 !! file = Some (Vec v) →
      file = "targets_qsar.txt")
  ∧ ∀ file,
      (main (Toy.args_for "qsar" 3) Toy.csv ∅).1 !! file
      ≠ Some (Vec [Fin 1; Fin 0; Fin 0]).
Proof.
  rewrite toy_qsar_run. simpl.
  assert (∀ file v,
            (<["targets_qsar.txt" := Vec (normalized [Fin 1; Fin 0; Fin 0])]>
               (<["latent_features.txt" :=
                    Mat [[Fin (INR 1)]; [Fin (INR 2)]; [Fin (INR 3)]]]> ∅)
             : files) !! file = Some (Vec v) →
            file = "targets_qsar.txt") as Honly.
  { intros file v Hfile.
    destruct (decide (file = "targets_qsar.txt")) as [|Hne1]; [done|].
    rewrite lookup_insert_ne in Hfile by done.
    destruct (decide (file = "latent_features.txt")) as [->|Hne2].
    - by rewrite lookup_insert_eq in Hfile.
    - by rewrite lookup_insert_ne in Hfile. }
  split; [done|]. split; [by read_file|]. split; [exact Honly|].
  intros file Hfile. pose proof (Honly _ _ Hfile) as ->.
  rewrite lookup_insert_eq in Hfile.
  apply toy_probabilities_normalized. congruence.
Qed.

Lemma files_written_by_mode_witness :
  ∃ fs',
    main (Toy.args_for "qsar" 3) Toy.csv ∅ = (fs', Ok tt)
    ∧ fs' !! "targets_qsar.txt" = Some (Vec (normalized [Fin 1; Fin 0; Fin 0]))
    ∧ fs' !! "SA_scores.txt" = None.
Proof.
  destruct (proj2 (files_written_by_mode (Toy.args_for "qsar" 3) Toy.csv ∅)
              _ 2048%nat _ [Fin 1; Fin 0; Fin 0]
              eq_refl (toy_batch_not_empty "qsar") (toy_fingerprints "qsar")
              toy_fingerprint_widths (toy_predict_proba _) toy_probabilities)
    as (fs' & Hrun & Htargets & Hother).
  exists fs'. split; [exact Hrun|]. split; [exact Htargets|].
  rewrite Hother; [apply lookup_empty|discriminate..].
Defined.

Lemma stored_scores_negated_witness :
  ∃ fs' stored_sa stored_cycle,
    main (Toy.args_for "logp" 3) Toy.csv ∅ = (fs', Ok tt)
    ∧ fs' !! "SA_scores.txt" = Some (Vec stored_sa)
    ∧ fs' !! "cycle_scores.txt" = Some (Vec stored_cycle)
    ∧ stored_sa !! 1%nat = Some (Fin (- INR 2))
    ∧ stored_cycle !! 1%nat = Some (Fin (- 0)).
Proof.
  destruct (proj2 (stored_scores_negated (Toy.args_for "logp" 3) Toy.csv ∅ logP
                     (or_introl (conj eq_refl eq_refl)))
              [Fin (INR 1); Fin (INR 2); Fin (INR 3)]
              [Fin (INR 1); Fin (INR 2); Fin (INR 3)]
              (replicate 3 (Fin 0))
              (toy_range_indexed "logp") (toy_sizes "logp")
              (toy_sizes "logp") (toy_no_large_ring "logp"))
    as (fs' & sa & cy & Hrun & Hsa & Hcy & Hneg).
  exists fs', sa, cy. split; [exact Hrun|]. split; [exact Hsa|].
  split; [exact Hcy|].
  destruct (Hneg 1%nat (1%Z, "CC") eq_refl) as (a & c & Ha & Hc & Hsa1 & Hcy1).
  injection Ha as <-. injection Hc as <-. split; [exact Hsa1|exact Hcy1].
Defined.

Lemma cutoff_first_rows_witness :
  load_smiles_df (Toy.args_for "logp" 2) Toy.csv = [(0%Z, "C"); (1%Z, "CC")]
  ∧ length (load_smiles_df (Toy.args_for "logp" 2) Toy.csv) = 2%nat.
Proof.
  destruct (proj1 (cutoff_first_rows (Toy.args_for "logp" 2) Toy.csv ∅)
              eq_refl) as (Hload & Hlen & _).
  split; [exact Hload|exact Hlen].
Defined.

Lemma fingerprints_rows_witness :
  fingerprints Toy.csv
  = Ok [replicate 2048 true; replicate 2048 false; replicate 2048 false].
Proof.
  apply (proj2 (fingerprints_rows Toy.csv
                  [replicate 2048 true; replicate 2048 false; replicate 2048 false])).
  split; [discriminate|]. split; [exact (toy_fingerprints "qsar")|].
  exists 2048%nat. exact toy_fingerprint_widths.
Defined.

Lemma QED_oracle_float32_entries_witness :
  ∃ t, QED_oracle ["C"; "?"; "CC"] = Ok t
    ∧ t !! 1%nat = Some PrimFloat.zero
    ∧ t !! 2%nat = Some F64.third_single.
Proof.
  destruct (QED_oracle_float32_entries ["C"; "?"; "CC"]) as (t & Hrun & _ & Hentries).
  exists t. split; [exact Hrun|]. split.
  - apply (proj1 (Hentries 1%nat "?" eq_refl)). reflexivity.
  - exact (proj2 (Hentries 2%nat "CC" eq_refl) "CC" eq_refl).
Defined.

(** The claim C9 fails: the string ["CC"] parses and the QED of its
    molecule is the float64 [1/3], but the entry of the tensor is the
    single-precision value next to it, which is another number. *)
Lemma QED_oracle_entry_is_not_the_QED :
  MolFromSmiles "CC" = Some "CC"
  ∧ QED_qed "CC" = F64.third
  ∧ QED_oracle ["CC"] = Ok [F64.third_single]
  ∧ F64.third_single ≠ F64.third.
Proof.
  split; [reflexivity|]. split; [reflexivity|]. split; [reflexivity|].
  intros Heq. apply (f_equal (PrimFloat.ltb F64.third)) in Heq.
  vm_compute in Heq. discriminate Heq.
Qed.

Lemma dump_outcomes_witness :
  dump (λ (d : string) (_ : Z), Return d) (λ _ _, None)
    {| dumping_path := Some "params.json"; dic := "{}" |} None None ∅
  = (<["params.json" := "{}" +:+ String (Ascii.ascii_of_nat 10) EmptyString]> ∅,
     Return tt).
Proof.
  apply (proj1 (proj2 (dump_outcomes (λ (d : string) (_ : Z), Return d) (λ _ _, None)
                         {| dumping_path := Some "params.json"; dic := "{}" |}
                         None None ∅) "params.json" eq_refl) "{}" eq_refl eq_refl).
Defined.

(** The claim C10 fails: with a path given, [dump] raises a [ValueError]
    all the same and writes nothing when the path holds a NUL character
    (raised by [open]) and when the dictionary contains itself (raised by
    [json.dumps]; here a dictionary is [true] when it is circular). *)
Lemma dump_ValueError_with_a_path :
  dump (λ (d : string) (_ : Z), Return d) (λ _ _, None)
    {| dumping_path := None; dic := "{}" |} None (Some (String nul "params.json")) ∅
  = (∅, Throw (Builtin (ValueError "embedded null byte")))
  ∧ dump (λ (circular : bool) (_ : Z),
            if circular then Throw (Builtin (ValueError "Circular reference detected"))
            else Return "{}")
      (λ _ _, None)
      {| dumping_path := Some "params.json"; dic := true |} None None ∅
    = (∅, Throw (Builtin (ValueError "Circular reference detected"))).
Proof. split; reflexivity. Qed.

End toy_runs.

(** * Further properties of the script *)

Section script_edges.
Context `{Chemistry, Models}.

Lemma three_objectives_raises (prop : option Mol → py np_float)
    (targets_file values_file : string) (df : DataFrame) (fs : files) (e : exn) :
  score_loop prop df = Raise e →
  three_objectives prop targets_file values_file df fs = (fs, Raise e).
Proof.
  intros Hloop. unfold three_objectives, mbind, M_mbind, M_bind, lift.
  by rewrite Hloop.
Qed.

(** X1.  Whatever the mode and whatever the outcome, [main] changes no
    file of the output directory besides [latent_features.txt] and the
    files of its mode; with a mode that is none of the four it completes
    having written the embeddings only. *)
Theorem main_touches_only_its_files (args : Args) (csv : DataFrame) (fs : files) :
  (∀ file, file ≠ "latent_features.txt" → file ∉ files_of_mode (obj args) →
     (main args csv fs).1 !! file = fs !! file)
  ∧ (obj args ∉ ["logp"; "qed"; "qsar"; "docking"] →
     main args csv fs
     = (<["latent_features.txt" := Mat (embed (load_smiles_df args csv))]> fs,
        Ok tt)).
Proof.
  split.
  - intros file Hlatent Hfile. unfold files_of_mode in Hfile.
    destruct (decide (obj args = "logp")) as [Hobj|Hlogp].
    { rewrite bool_decide_eq_true_2 in Hfile by done.
      rewrite (main_logp args csv fs Hobj).
      destruct (score_loop logP (load_smiles_df args csv)) as [sc|e] eqn:Hloop.
      - pose proof Hloop as Hsc.
        apply score_loop_inv in Hsc as (ps & sas & cys & -> & Hlp & Hls & Hlc & _).
        erewrite three_objectives_run; [|done|].
        2: { apply composite_same_shape; simpl; rewrite ?length_fmap; lia. }
        simpl. rewrite !lookup_insert_ne; [done|set_solver..].
      - rewrite (three_objectives_raises _ _ _ _ _ e Hloop). simpl.
        by rewrite lookup_insert_ne. }
    rewrite bool_decide_eq_false_2 in Hfile by done.
    destruct (decide (obj args = "qed")) as [Hobj|Hqed].
    { rewrite bool_decide_eq_true_2 in Hfile by done.
      rewrite (main_qed args csv fs Hobj).
      destruct (score_loop qed (load_smiles_df args csv)) as [sc|e] eqn:Hloop.
      - pose proof Hloop as Hsc.
        apply score_loop_inv in Hsc as (ps & sas & cys & -> & Hlp & Hls & Hlc & _).
        erewrite three_objectives_run; [|done|].
        2: { apply composite_same_shape; simpl; rewrite ?length_fmap; lia. }
        simpl. rewrite !lookup_insert_ne; [done|set_solver..].
      - rewrite (three_objectives_raises _ _ _ _ _ e Hloop). simpl.
        by rewrite lookup_insert_ne. }
    rewrite bool_decide_eq_false_2 in Hfile by done.
    destruct (decide (obj args = "qsar")) as [Hobj|Hqsar].
    { rewrite bool_decide_eq_true_2 in Hfile by done.
      rewrite (main_qsar args csv fs Hobj).
      destruct (qsar_targets (load_smiles_df args csv)); simpl.
      - rewrite !lookup_insert_ne; [done|set_solver..].
      - by rewrite lookup_insert_ne. }
    destruct (decide (obj args = "docking")) as [Hobj|Hdocking].
    { rewrite (main_docking args csv fs Hobj). simpl.
      by rewrite lookup_insert_ne. }
    unfold main. rewrite !bool_decide_eq_false_2 by done.
    unfold mbind, M_mbind, M_bind, savetxt, mret, M_mret, M_ret. simpl.
    by rewrite lookup_insert_ne.
  - intros Hmode. unfold main.
    rewrite !bool_decide_eq_false_2 by set_solver. done.
Qed.

(** X2.  In the modes [logp] and [qed] the score files are written all or
    none: either the scoring loop raises, the exception leaves [main] and
    only the embeddings were written, or the run completes and the four
    files of the mode are there.  Nothing after the loop can fail. *)
Theorem score_files_all_or_none (args : Args) (csv : DataFrame) (fs : files)
    (prop : option Mol → py np_float) (targets_file values_file : string) :
  (obj args = "logp" ∧ prop = logP
   ∧ targets_file = "targets_logp.txt" ∧ values_file = "logP_values.txt")
  ∨ (obj args = "qed" ∧ prop = qed
     ∧ targets_file = "targets_qed.txt" ∧ values_file = "qed_values.txt") →
  (∃ e, score_loop prop (load_smiles_df args csv) = Raise e
        ∧ main args csv fs
          = (<["latent_features.txt" := Mat (embed (load_smiles_df args csv))]> fs,
             Raise e))
  ∨ (∃ sc fs', score_loop prop (load_smiles_df args csv) = Ok sc
        ∧ main args csv fs = (fs', Ok tt)
        ∧ is_Some (fs' !! targets_file)
        ∧ fs' !! values_file = Some (Vec (prop_values sc))
        ∧ fs' !! "SA_scores.txt" = Some (Vec (SA_scores sc))
        ∧ fs' !! "cycle_scores.txt" = Some (Vec (cycle_scores sc))).
Proof.
  intros Hmode.
  assert (main args csv fs
          = three_objectives prop targets_file values_file
              (load_smiles_df args csv)
              (<["latent_features.txt" :=
                   Mat (embed (load_smiles_df args csv))]> fs)) as ->.
  { destruct Hmode as [(Hobj & -> & -> & ->)|(Hobj & -> & -> & ->)];
      [by apply main_logp|by apply main_qed]. }
  assert (targets_file ≠ values_file ∧ targets_file ≠ "SA_scores.txt"
          ∧ targets_file ≠ "cycle_scores.txt" ∧ values_file ≠ "SA_scores.txt"
          ∧ values_file ≠ "cycle_scores.txt") as (? & ? & ? & ? & ?).
  { by destruct Hmode as [(_ & _ & -> & ->)|(_ & _ & -> & ->)]. }
  destruct (score_loop prop (load_smiles_df args csv)) as [sc|e] eqn:Hloop.
  - right. pose proof Hloop as Hsc.
    apply score_loop_inv in Hsc as (ps & sas & cys & -> & Hlp & Hls & Hlc & _).
    eexists _, _. split; [done|].
    erewrite three_objectives_run; [|done|].
    2: { apply composite_same_shape; simpl; rewrite ?length_fmap; lia. }
    split; [done|]. simpl. split_and!; [|by read_file..].
    rewrite !lookup_insert_ne, lookup_insert_eq by done. by eexists.
  - left. exists e. split; [done|]. by apply three_objectives_raises.
Qed.

End script_edges.

Section labels.
Context `{Chemistry, Models}.

Lemma filter_label_absent (df : DataFrame) (i : Z) :
  Forall (λ r, r.1 ≠ i) df → filter (λ r, r.1 = i) df = [].
Proof.
  induction 1 as [|r df Hr _ IH]; [done|]. by rewrite filter_cons_False.
Qed.

Lemma score_loop_first (prop : option Mol → py np_float) (df : DataFrame) (e : exn) :
  df ≠ [] → score_step prop df no_scores 0 = Raise e →
  score_loop prop df = Raise e.
Proof.
  intros Hdf Hstep. unfold score_loop. destruct df as [|r df]; [done|].
  change (seq 0 (length (r :: df))) with (0%nat :: seq 1 (length df)).
  by rewrite for_each_cons, Hstep.
Qed.

(** X3.  The scoring loops of [logp] and [qed] look the rows up by index
    label.  On a table that is not empty and has no row labelled 0 (an
    index that starts at 1, say) the first iteration raises [KeyError] for
    0; with several rows labelled 0 [MolFromSmiles] is handed a sub-series
    and refuses it.  Either way only the embeddings are written. *)
Theorem scoring_needs_label_0 (args : Args) (csv : DataFrame) (fs : files) :
  obj args = "logp" ∨ obj args = "qed" →
  load_smiles_df args csv ≠ [] →
  (Forall (λ r, r.1 ≠ 0%Z) (load_smiles_df args csv) →
     main args csv fs
     = (<["latent_features.txt" := Mat (embed (load_smiles_df args csv))]> fs,
        Raise (KeyError 0)))
  ∧ (∀ r1 r2 rest,
     filter (λ r, r.1 = 0%Z) (load_smiles_df args csv) = r1 :: r2 :: rest →
     main args csv fs
     = (<["latent_features.txt" := Mat (embed (load_smiles_df args csv))]> fs,
        Raise ArgumentError)).
Proof.
  intros Hmode Hdf.
  assert (∀ e, (∀ prop, score_step prop (load_smiles_df args csv) no_scores 0
                        = Raise e) →
            main args csv fs
            = (<["latent_features.txt" :=
                   Mat (embed (load_smiles_df args csv))]> fs, Raise e)) as Hmain.
  { intros e Hstep. destruct Hmode as [Hobj|Hobj].
    - rewrite (main_logp args csv fs Hobj).
      by apply three_objectives_raises, score_loop_first.
    - rewrite (main_qed args csv fs Hobj).
      by apply three_objectives_raises, score_loop_first. }
  split.
  - intros Hlabels. apply Hmain. intros prop. unfold score_step, getitem.
    change (Z.of_nat 0) with 0%Z.
    by rewrite (filter_label_absent _ 0 Hlabels).
  - intros r1 r2 rest Hrows. apply Hmain. intros prop.
    unfold score_step, getitem. change (Z.of_nat 0) with 0%Z.
    by rewrite Hrows.
Qed.

(** Looking a label up and parsing what is found does not depend on the
    order of the rows. *)
Lemma lookup_parse_Permutation (df df' : DataFrame) (i : Z) :
  df ≡ₚ df' →
  getitem df i ≫= MolFromSmiles_arg = getitem df' i ≫= MolFromSmiles_arg.
Proof.
  intros Hperm. unfold getitem.
  assert (filter (λ r, r.1 = i) df ≡ₚ filter (λ r, r.1 = i) df') as Hfilter
    by by rewrite Hperm.
  pose proof (Permutation_length Hfilter) as Hlen.
  destruct (filter (λ r, r.1 = i) df) as [|r1 [|r2 rest]],
    (filter (λ r, r.1 = i) df') as [|r1' [|r2' rest']];
    simpl in Hlen; try lia; try done.
  apply Permutation_singleton_inj in Hfilter. by subst.
Qed.

Lemma score_step_Permutation (prop : option Mol → py np_float)
    (df df' : DataFrame) (acc : scores) (i : nat) :
  df ≡ₚ df' → score_step prop df acc i = score_step prop df' acc i.
Proof.
  intros Hperm.
  pose proof (lookup_parse_Permutation df df' (Z.of_nat i) Hperm) as Hlookup.
  unfold score_step.
  destruct (getitem df (Z.of_nat i)) as [o|e],
    (getitem df' (Z.of_nat i)) as [o'|e']; simpl in *;
    first [by rewrite Hlookup | by rewrite <- Hlookup | by simplify_eq].
Qed.

Lemma for_each_ext {A B : Type} (body body' : A → B → py A) (a : A) (xs : list B) :
  (∀ a x, body a x = body' a x) → for_each body a xs = for_each body' a xs.
Proof.
  intros Hbody. revert a. induction xs as [|x xs IH]; intros a; [done|].
  simpl. rewrite Hbody. destruct (body' a x); simpl; [apply IH|done].
Qed.

(** X4.  The score files of the modes [logp] and [qed] depend on the rows
    through their labels, not through their order: a table with the rows
    permuted gives the same lists of scores, entry [i] being that of the
    row labelled [i], while the embeddings follow the order of the rows. *)
Theorem scores_follow_labels (prop : option Mol → py np_float)
    (targets_file values_file : string) (df df' : DataFrame) (fs : files) :
  df ≡ₚ df' →
  score_loop prop df = score_loop prop df'
  ∧ three_objectives prop targets_file values_file df fs
    = three_objectives prop targets_file values_file df' fs.
Proof.
  intros Hperm.
  assert (score_loop prop df = score_loop prop df') as Hloop.
  { unfold score_loop. rewrite (Permutation_length Hperm).
    apply for_each_ext. intros acc i. by apply score_step_Permutation. }
  split; [done|]. unfold three_objectives. by rewrite Hloop.
Qed.

(** X5.  On an empty table the modes [logp] and [qed] complete and write
    four empty vectors, where the mode [qsar] fails in [np.vstack] with a
    [ValueError] and writes the embeddings only. *)
Theorem empty_table (args : Args) (csv : DataFrame) (fs : files) :
  load_smiles_df args csv = [] →
  (∀ prop targets_file values_file,
     (obj args = "logp" ∧ prop = logP
      ∧ targets_file = "targets_logp.txt" ∧ values_file = "logP_values.txt")
     ∨ (obj args = "qed" ∧ prop = qed
        ∧ targets_file = "targets_qed.txt" ∧ values_file = "qed_values.txt") →
     main args csv fs
     = (<["cycle_scores.txt" := Vec []]>
          (<["SA_scores.txt" := Vec []]>
             (<[values_file := Vec []]>
                (<[targets_file := Vec []]>
                   (<["latent_features.txt" := Mat (embed [])]> fs)))),
        Ok tt))
  ∧ (obj args = "qsar" →
     main args csv fs
     = (<["latent_features.txt" := Mat (embed [])]> fs,
        Raise (ValueError "need at least one array to concatenate"))).
Proof.
  intros Hempty. split.
  - intros prop targets_file values_file
      [(Hobj & -> & -> & ->)|(Hobj & -> & -> & ->)].
    + rewrite (main_logp args csv fs Hobj), Hempty. reflexivity.
    + rewrite (main_qed args csv fs Hobj), Hempty. reflexivity.
  - intros Hobj. rewrite (main_qsar args csv fs Hobj), Hempty. reflexivity.
Qed.

End labels.

(** * Further properties of the normaliser *)

Section normaliser.
#[local] Open Scope R_scope.

Lemma Rsum_affine (a b : R) (rs : list R) :
  Rsum ((λ r, a * r + b) <$> rs) = a * Rsum rs + INR (length rs) * b.
Proof.
  induction rs as [|r rs IH]; [simpl; lra|].
  rewrite fmap_cons, length_cons, S_INR. simpl. rewrite IH. lra.
Qed.

Lemma Rmean_affine (a b : R) (rs : list R) :
  rs ≠ [] → Rmean ((λ r, a * r + b) <$> rs) = a * Rmean rs + b.
Proof.
  intros Hrs. unfold Rmean. rewrite Rsum_affine, length_fmap.
  field. by apply INR_length_nonzero.
Qed.

Lemma Rvar_affine (a b : R) (rs : list R) :
  rs ≠ [] → Rvar ((λ r, a * r + b) <$> rs) = a * a * Rvar rs.
Proof.
  intros Hrs. unfold Rvar. rewrite Rmean_affine, length_fmap by done.
  rewrite <- list_fmap_compose.
  rewrite (list_fmap_ext _
    (λ r, a * a * ((r - Rmean rs) * (r - Rmean rs)) + 0) rs)
    by (intros _ r _; simpl; ring).
  rewrite (list_fmap_compose (λ r, (r - Rmean rs) * (r - Rmean rs))
             (λ q, a * a * q + 0)), Rsum_affine.
  field. by apply INR_length_nonzero.
Qed.

(** The z-scores after a change of scale and origin of the scores. *)
Lemma normalized_affine (a b : R) (rs : list R) :
  rs ≠ [] → Rvar rs ≠ 0 → a ≠ 0 →
  normalized (Fin <$> ((λ r, a * r + b) <$> rs))
  = Fin <$> ((λ r, a / Rabs a * ((r - Rmean rs) / sqrt (Rvar rs))) <$> rs).
Proof.
  intros Hrs Hv Ha.
  assert ((λ r, a * r + b) <$> rs ≠ []) as Hne by by destruct rs.
  pose proof (Rvar_nonneg rs Hrs) as Hpos.
  assert (a * a * Rvar rs ≠ 0) as Hv'.
  { intros [Hz|Hz]%Rmult_integral; [|done].
    by apply Rmult_integral in Hz as [Hz|Hz]. }
  rewrite normalized_Fin by (by rewrite ?Rvar_affine).
  rewrite Rmean_affine, Rvar_affine by done.
  f_equal. rewrite <- list_fmap_compose. apply list_fmap_ext. intros _ r _. simpl.
  replace (a * a) with (Rsqr a) by reflexivity.
  rewrite sqrt_mult by (try apply Rle_0_sqr; done). rewrite sqrt_Rsqr_abs.
  pose proof (sqrt_Rvar_nonzero rs Hrs Hv). pose proof (Rabs_no_R0 a Ha).
  field. done.
Qed.

(** X6.  Negating the scores of a batch with a non-zero variance, as the
    scoring loops do with the SA and cycle scores, negates its z-scores:
    the sign convention passes through the normalisation. *)
Theorem normalized_neg (xs : list np_float) (v : R) :
  NP.var xs = Fin v → v ≠ 0 →
  normalized (NP.neg <$> xs) = NP.neg <$> normalized xs.
Proof.
  intros (rs & -> & Hrs & ->)%var_Fin_inv Hv.
  rewrite (normalized_Fin rs) by done.
  rewrite <- !list_fmap_compose.
  rewrite (list_fmap_ext (NP.neg ∘ Fin) (Fin ∘ (λ r, -1 * r + 0)) rs)
    by (intros _ r _; simpl; f_equal; ring).
  rewrite list_fmap_compose, (normalized_affine (-1) 0 rs) by (done || lra).
  rewrite <- list_fmap_compose. apply list_fmap_ext. intros _ r _. simpl.
  f_equal. rewrite Rabs_left by lra. field.
  by apply sqrt_Rvar_nonzero.
Qed.

End normaliser.

(** * Properties of the utilities *)

Section oracle_more.
Context `{Chemistry}.

Lemma QED_oracle_eq (smiles : list string) :
  QED_oracle smiles
  = Ok ((λ s, match MolFromSmiles s with
              | Some m => F64.to_float32 (QED_qed m)
              | None => PrimFloat.zero
              end) <$> smiles).
Proof.
  unfold QED_oracle. cbv zeta. rewrite QED_oracle_loop by done.
  by rewrite Nat.sub_diag, app_nil_r.
Qed.

(** X9.  [QED_oracle] works string by string: the tensor of a list put
    together from two lists is the tensor of the first followed by the
    tensor of the second, so an entry depends on its own string only, not
    on its position or on the strings around it. *)
Theorem QED_oracle_app (smiles1 smiles2 : list string) :
  QED_oracle (smiles1 ++ smiles2)
  = t1 ← QED_oracle smiles1; t2 ← QED_oracle smiles2; Ok (t1 ++ t2).
Proof. rewrite !QED_oracle_eq. simpl. by rewrite fmap_app. Qed.

End oracle_more.

Section i2s_facts.
Implicit Types (idx_to_char : gmap Z string) (idces : list Z).

Lemma string_app_assoc (a b c : string) : (a +:+ b) +:+ c = a +:+ (b +:+ c).
Proof.
  induction a as [|x a IH]; [done|].
  change (String x ((a +:+ b) +:+ c) = String x (a +:+ (b +:+ c))).
  by rewrite IH.
Qed.

Lemma string_length_app (a b : string) :
  String.length (a +:+ b) = (String.length a + String.length b)%nat.
Proof.
  induction a as [|x a IH]; [done|].
  change (S (String.length (a +:+ b)) = S (String.length a + String.length b)).
  by rewrite IH.
Qed.

Lemma join_strings_app (cs ds : list string) :
  join_strings (cs ++ ds) = join_strings cs +:+ join_strings ds.
Proof.
  induction cs as [|c cs IH]; [done|].
  change (join_strings ((c :: cs) ++ ds)) with (c +:+ join_strings (cs ++ ds)).
  change (join_strings (c :: cs)) with (c +:+ join_strings cs).
  rewrite IH. symmetry. apply string_app_assoc.
Qed.

Lemma chars_of_app idx_to_char idces1 idces2 :
  chars_of idx_to_char (idces1 ++ idces2)
  = cs ← chars_of idx_to_char idces1;
    ds ← chars_of idx_to_char idces2;
    Return (cs ++ ds).
Proof.
  induction idces1 as [|idx idces1 IH]; simpl.
  - by destruct (chars_of idx_to_char idces2).
  - destruct (idx_to_char !! idx); [|done]. rewrite IH.
    destruct (chars_of idx_to_char idces1); simpl; [|done].
    by destruct (chars_of idx_to_char idces2).
Qed.

Lemma chars_of_keys idx_to_char idces :
  Forall (λ idx, is_Some (idx_to_char !! idx)) idces →
  ∃ cs, chars_of idx_to_char idces = Return cs
        ∧ Forall2 (λ idx c, idx_to_char !! idx = Some c) idces cs.
Proof.
  induction 1 as [|idx idces [c Hc] _ (cs & Hcs & Hall)].
  - exists []. split; [done|constructor].
  - exists (c :: cs). simpl. rewrite Hc, Hcs. split; [done|by constructor].
Qed.

Lemma chars_of_keys_inv idx_to_char idces (cs : list string) :
  chars_of idx_to_char idces = Return cs →
  Forall (λ idx, is_Some (idx_to_char !! idx)) idces.
Proof.
  revert cs. induction idces as [|idx idces IH]; intros cs Hcs; [constructor|].
  simpl in Hcs. destruct (idx_to_char !! idx) as [c|] eqn:Hc; [|done].
  destruct (chars_of idx_to_char idces) as [cs'|] eqn:Hcs'; [|done].
  constructor; [by eexists|]. by eapply IH.
Qed.

(** X10.  [i2s] is compatible with concatenation: the string of a
    sequence of indices cut in two is the string of the first part
    followed by the string of the second, and it raises when one of them
    does, the first part first. *)
Theorem i2s_app idx_to_char idces1 idces2 :
  i2s (idces1 ++ idces2) idx_to_char
  = s1 ← i2s idces1 idx_to_char;
    s2 ← i2s idces2 idx_to_char;
    Return (s1 +:+ s2).
Proof.
  unfold i2s. rewrite chars_of_app.
  destruct (chars_of idx_to_char idces1) as [cs|]; simpl; [|done].
  destruct (chars_of idx_to_char idces2) as [ds|]; simpl; [|done].
  by rewrite join_strings_app.
Qed.

(** X11.  [i2s] returns a string exactly when every index is a key of
    the mapping; otherwise it raises [KeyError] for the first index that
    is not a key. *)
Theorem i2s_KeyError idx_to_char idces :
  (Forall (λ idx, is_Some (idx_to_char !! idx)) idces
   ↔ ∃ s, i2s idces idx_to_char = Return s)
  ∧ ∀ before idx after,
      idces = before ++ idx :: after →
      Forall (λ idx, is_Some (idx_to_char !! idx)) before →
      idx_to_char !! idx = None →
      i2s idces idx_to_char = Throw (Builtin (KeyError idx)).
Proof.
  split; [split|].
  - intros (cs & Hcs & _)%chars_of_keys. exists (join_strings cs).
    unfold i2s. by rewrite Hcs.
  - intros [s Hs]. unfold i2s in Hs.
    destruct (chars_of idx_to_char idces) as [cs|] eqn:Hcs; [|done].
    by eapply chars_of_keys_inv.
  - intros before idx after -> (cs & Hcs & _)%chars_of_keys Hidx.
    unfold i2s. rewrite chars_of_app, Hcs. simpl. by rewrite Hidx.
Qed.

(** X12.  When the mapping sends every index to a single character, the
    string made by [i2s] has as many characters as there are indices. *)
Theorem i2s_length idx_to_char idces (s : string) :
  (∀ idx c, idx_to_char !! idx = Some c → String.length c = 1%nat) →
  i2s idces idx_to_char = Return s →
  String.length s = length idces.
Proof.
  intros Hchar. unfold i2s. revert s.
  induction idces as [|idx idces IH]; intros s Hs; simpl in Hs.
  - by injection Hs as <-.
  - destruct (idx_to_char !! idx) as [c|] eqn:Hc; [|done].
    destruct (chars_of idx_to_char idces) as [cs|]; [|done].
    simpl in Hs. injection Hs as <-. simpl.
    rewrite string_length_app, (Hchar idx c Hc). f_equal. by apply IH.
Qed.

End i2s_facts.

Section smiles_logs.
Context `{Chemistry}.
Implicit Types (idx_to_char : gmap Z string) (ins outs : list string).

Lemma loop_cons {A B : Type} (body : A → B → outcome A) (a : A) (x : B) (xs : list B) :
  loop body a (x :: xs) = a' ← body a x; loop body a' xs.
Proof. reflexivity. Qed.

Lemma leading_matches_le ins outs :
  (leading_matches ins outs ≤ length ins)%nat.
Proof.
  revert outs. induction ins as [|a ins IH]; intros [|b outs]; simpl; try lia.
  case_bool_decide; [|lia]. specialize (IH outs). lia.
Qed.

(** The first [j + 1] rows agree exactly when row [j] is among the
    leading matches. *)
Lemma take_eq_leading ins outs (j : nat) :
  length ins = length outs → (j < length ins)%nat →
  take (S j) ins = take (S j) outs ↔ (j < leading_matches ins outs)%nat.
Proof.
  revert outs j. induction ins as [|a ins IH]; intros [|b outs] j Hlen Hj;
    simplify_eq/=; [lia|].
  case_bool_decide as Hab.
  - subst b. destruct j as [|j].
    + rewrite !take_0. split; [lia|done].
    + rewrite <- Nat.succ_lt_mono, <- IH by lia. split; [by intros [=]|by intros ->].
  - split; [by intros [=]|lia].
Qed.

Lemma compare_loop (true_idces out_idces : list (list Z)) idx_to_char ins outs
    (n k : nat) :
  Forall2 (λ r s, i2s r idx_to_char = Return s) out_idces outs →
  Forall2 (λ r s, i2s r idx_to_char = Return s) true_idces ins →
  length true_idces = length out_idces →
  (k + n = length out_idces)%nat →
  loop (compare_step true_idces out_idces idx_to_char)
    {| in_smiles := take k ins;
       out_smiles := take k outs;
       identical := Nat.min k (leading_matches ins outs) |} (seq k n)
  = Return {| in_smiles := ins;
              out_smiles := outs;
              identical := leading_matches ins outs |}.
Proof.
  intros Houts Hins Hrows.
  pose proof (Forall2_length _ _ _ Houts) as Hlo.
  pose proof (Forall2_length _ _ _ Hins) as Hli.
  pose proof (leading_matches_le ins outs) as Hle.
  revert k. induction n as [|n IH]; intros k Hk.
  - simpl. rewrite !take_ge by lia. do 2 f_equal. lia.
  - change (seq k (S n)) with (k :: seq (S k) n). rewrite loop_cons.
    destruct (lookup_lt_is_Some_2 out_idces k) as [orow Horow]; [lia|].
    destruct (lookup_lt_is_Some_2 true_idces k) as [trow Htrow]; [lia|].
    destruct (Forall2_lookup_l _ _ _ _ _ Houts Horow) as (o & Ho & Hdo).
    destruct (Forall2_lookup_l _ _ _ _ _ Hins Htrow) as (s & Hs & Hds).
    unfold compare_step, row. rewrite Horow, Htrow. simpl.
    rewrite Hdo. simpl. rewrite Hds. simpl.
    rewrite <- (take_S_r ins k s Hs), <- (take_S_r outs k o Ho).
    pose proof (take_eq_leading ins outs k) as Hiff.
    rewrite <- (IH (S k)) by lia. do 3 f_equal.
    case_bool_decide as Heq.
    + apply Hiff in Heq; lia.
    + assert (¬ (k < leading_matches ins outs)%nat) by (rewrite <- Hiff; [done|lia..]).
      lia.
Qed.

Lemma sample_loop (out_idces : list (list Z)) idx_to_char outs (n k : nat) :
  Forall2 (λ r s, i2s r idx_to_char = Return s) out_idces outs →
  (k + n = length out_idces)%nat →
  loop (sample_step out_idces idx_to_char)
    {| in_smiles := [];
       out_smiles :=
         filter (λ o, is_Some (MolFromSmiles (rstrip_newline o))) (take k outs);
       identical := 0 |} (seq k n)
  = Return {| in_smiles := [];
              out_smiles :=
                filter (λ o, is_Some (MolFromSmiles (rstrip_newline o))) outs;
              identical := 0 |}.
Proof.
  intros Houts. pose proof (Forall2_length _ _ _ Houts) as Hlo.
  revert k. induction n as [|n IH]; intros k Hk.
  - simpl. by rewrite take_ge by lia.
  - change (seq k (S n)) with (k :: seq (S k) n). rewrite loop_cons.
    destruct (lookup_lt_is_Some_2 out_idces k) as [orow Horow]; [lia|].
    destruct (Forall2_lookup_l _ _ _ _ _ Houts Horow) as (o & Ho & Hdo).
    unfold sample_step, row. rewrite Horow. simpl. rewrite Hdo. simpl.
    rewrite <- (IH (S k)) by lia. f_equal.
    rewrite (take_S_r outs k o Ho), filter_app.
    destruct (MolFromSmiles (rstrip_newline o)) as [m|] eqn:Hm; simpl.
    + by rewrite filter_cons_True by (by rewrite Hm).
    + rewrite filter_cons_False by (rewrite Hm; by intros [??]).
      by rewrite filter_nil, app_nil_r.
Qed.

(** The mean of the validity flags is the fraction of valid strings. *)
Lemma mean_validity outs :
  outs ≠ [] →
  NP.mean (validity outs)
  = Fin (INR (length
                (filter (λ o, is_Some (MolFromSmiles (rstrip_newline o))) outs))
         / INR (length outs)).
Proof.
  intros Houts. unfold validity.
  rewrite (list_fmap_ext _
    (Fin ∘ (λ o, match MolFromSmiles (rstrip_newline o) with
                 | Some _ => 1%R
                 | None => 0%R
                 end)) outs)
    by (intros _ o _; simpl; by destruct (MolFromSmiles _)).
  rewrite list_fmap_compose, mean_Fin by (by destruct outs).
  f_equal. unfold Rmean. rewrite length_fmap. f_equal.
  clear Houts. induction outs as [|o outs IH]; [done|]. csimpl.
  destruct (MolFromSmiles (rstrip_newline o)) as [m|] eqn:Hm.
  - rewrite filter_cons_True by (by rewrite Hm).
    rewrite length_cons, S_INR, IH. lra.
  - rewrite filter_cons_False by (rewrite Hm; by intros [??]).
    rewrite IH. lra.
Qed.

(** X13.  With input indices given, [log_smiles_from_indices] compares at
    every row the whole lists of strings built so far, so its counter
    [identical] ends as the number of leading rows that are reconstructed
    exactly: [frac_id] is the fraction of leading exact rows, and a first
    row that differs makes it 0 whatever follows.  [frac_valid] is the
    fraction of output strings that parse once their trailing line feeds
    are removed. *)
Theorem frac_id_counts_leading_rows (true_idces out_idces : list (list Z))
    idx_to_char ins outs :
  Forall2 (λ r s, i2s r idx_to_char = Return s) out_idces outs →
  Forall2 (λ r s, i2s r idx_to_char = Return s) true_idces ins →
  length true_idces = length out_idces →
  out_idces ≠ [] →
  log_smiles_from_indices (Some true_idces) out_idces idx_to_char
  = Return ({| input_column := Some ins; output_column := outs |},
            Fin (INR (length
                        (filter (λ o, is_Some (MolFromSmiles (rstrip_newline o)))
                           outs))
                 / INR (length out_idces)),
            Fin (INR (leading_matches ins outs) / INR (length out_idces)))
  ∧ (∀ a b ins' outs', ins = a :: ins' → outs = b :: outs' → a ≠ b →
       leading_matches ins outs = 0%nat).
Proof.
  intros Houts Hins Hrows Hne. split.
  - unfold log_smiles_from_indices. cbv zeta.
    pose proof (compare_loop true_idces out_idces idx_to_char ins outs
                  (length out_idces) 0 Houts Hins Hrows eq_refl) as Hloop.
    rewrite !take_0 in Hloop. simpl Nat.min in Hloop. rewrite Hloop. simpl.
    assert (outs ≠ []) as Houts_ne.
    { intros ->. apply Forall2_nil_inv_r in Houts. done. }
    rewrite mean_validity by done.
    rewrite <- (Forall2_length _ _ _ Houts).
    unfold int_truediv. rewrite bool_decide_eq_false_2; [done|].
    by destruct out_idces.
  - intros a b ins' outs' -> -> Hab. simpl. by rewrite bool_decide_eq_false_2.
Qed.

(** X14.  Without rows, [log_smiles_from_indices] divides by the row
    count 0 and raises [ZeroDivisionError], with or without input
    indices. *)
Theorem log_smiles_no_rows (true_idces : option (list (list Z))) idx_to_char :
  log_smiles_from_indices true_idces [] idx_to_char = Throw ZeroDivisionError.
Proof. by destruct true_idces. Qed.

(** X15.  Without input indices, [log_smiles_from_indices] keeps, in
    order, the output strings that parse once their trailing line feeds
    are removed, and keeps them with their line feeds; [frac_valid] is
    their share of the rows, a number between 0 and 1, and [frac_id] is
    0. *)
Theorem sampled_smiles_are_valid (out_idces : list (list Z)) idx_to_char outs :
  Forall2 (λ r s, i2s r idx_to_char = Return s) out_idces outs →
  out_idces ≠ [] →
  ∃ kept,
    kept = filter (λ o, is_Some (MolFromSmiles (rstrip_newline o))) outs
    ∧ log_smiles_from_indices None out_idces idx_to_char
      = Return ({| input_column := None; output_column := kept |},
                Fin (INR (length kept) / INR (length out_idces)),
                Fin 0)
    ∧ (0 <= INR (length kept) / INR (length out_idces) <= 1)%R.
Proof.
  intros Houts Hne. eexists. split; [done|].
  pose proof (Forall2_length _ _ _ Houts) as Hlen.
  assert (0 < length out_idces)%nat as Hpos by (destruct out_idces; [done|simpl; lia]).
  split.
  - unfold log_smiles_from_indices. cbv zeta.
    pose proof (sample_loop out_idces idx_to_char outs (length out_idces) 0
                  Houts eq_refl) as Hloop.
    rewrite take_0, filter_nil in Hloop. rewrite Hloop. simpl.
    unfold int_truediv. rewrite bool_decide_eq_false_2 by lia. done.
  - pose proof (length_filter (λ o, is_Some (MolFromSmiles (rstrip_newline o))) outs)
      as Hle.
    apply lt_INR in Hpos. simpl in Hpos.
    assert (INR (length (filter
              (λ o, is_Some (MolFromSmiles (rstrip_newline o))) outs))
            <= INR (length out_idces))%R as Hle'
      by (apply le_INR; lia).
    pose proof (pos_INR (length (filter
              (λ o, is_Some (MolFromSmiles (rstrip_newline o))) outs))) as Hge.
    split.
    + apply Rmult_le_pos; [done|]. by apply Rlt_le, Rinv_0_lt_compat.
    + apply (Rmult_le_reg_r (INR (length out_idces))); [done|].
      unfold Rdiv. rewrite Rmult_assoc, Rinv_l by lra. lra.
Qed.

End smiles_logs.

Section directories.
Context `{Directories}.

Lemma St_bind_eq {S A B : Type} (f : A → St S B) (c : St S A) (s : S) :
  (c ≫= f) s = match c s with
               | (s', Return a) => f a s'
               | (s', Throw e) => (s', Throw e)
               end.
Proof. reflexivity. Qed.

Lemma soft_mkdir_exists (p : string) (t : tree) :
  path_exists p t = true → soft_mkdir p t = (t, Return tt).
Proof. intros Hp. unfold soft_mkdir. by rewrite Hp. Qed.

(** A [soft_mkdir] that returns leaves the path in place and removes none. *)
Lemma soft_mkdir_returns (p : string) (t t' : tree) :
  posix_mkdir → soft_mkdir p t = (t', Return tt) →
  path_exists p t' = true ∧ ∀ q, path_exists q t = true → path_exists q t' = true.
Proof.
  intros (_ & Hok & _). unfold soft_mkdir.
  destruct (path_exists p t) eqn:Hp; [|by apply Hok].
  by intros [= <-].
Qed.

Lemma path_join_absolute (a b name : string) :
  startswith_sep name = true → path_join a [b; name] = name.
Proof. intros Hname. unfold path_join. simpl. unfold join_step at 1. by rewrite Hname. Qed.

(** The five [soft_mkdir] of a permissive [setup] that returned. *)
Lemma setup_permissive_returns (script_dir name : string) (t t' : tree)
    (dirs : string * string) :
  posix_mkdir →
  setup script_dir (Some name) true t = (t', Return dirs) →
  dirs = (path_join script_dir ["results/logs"; name],
          path_join script_dir ["results/saved_models"; name])
  ∧ Forall (λ p, path_exists p t' = true)
      [path_join script_dir ["results"];
       path_join script_dir ["results/logs"];
       path_join script_dir ["results/saved_models"];
       path_join script_dir ["results/logs"; name];
       path_join script_dir ["results/saved_models"; name]].
Proof.
  intros Hposix. unfold setup. rewrite !St_bind_eq.
  destruct (soft_mkdir (path_join script_dir ["results"]) t)
    as [t1 [[]|]] eqn:H1; [|done].
  rewrite !St_bind_eq.
  destruct (soft_mkdir (path_join script_dir ["results/logs"]) t1)
    as [t2 [[]|]] eqn:H2; [|done].
  rewrite !St_bind_eq.
  destruct (soft_mkdir (path_join script_dir ["results/saved_models"]) t2)
    as [t3 [[]|]] eqn:H3; [|done].
  cbv zeta. rewrite !St_bind_eq.
  destruct (soft_mkdir (path_join script_dir ["results/logs"; name]) t3)
    as [t4 [[]|]] eqn:H4; [|done].
  destruct (soft_mkdir (path_join script_dir ["results/saved_models"; name]) t4)
    as [t5 [[]|]] eqn:H5; [|done].
  intros [= <- <-]. split; [done|].
  apply (soft_mkdir_returns _ _ _ Hposix) in H1 as [E1 M1].
  apply (soft_mkdir_returns _ _ _ Hposix) in H2 as [E2 M2].
  apply (soft_mkdir_returns _ _ _ Hposix) in H3 as [E3 M3].
  apply (soft_mkdir_returns _ _ _ Hposix) in H4 as [E4 M4].
  apply (soft_mkdir_returns _ _ _ Hposix) in H5 as [E5 M5].
  repeat constructor; auto.
Qed.

(** X16.  [setup] without a name never returns: when nothing fails before,
    it creates the three result directories and then raises
    [UnboundLocalError] on [return logdir, modeldir], the two variables
    being assigned only under [if name is not None]. *)
Theorem setup_without_name_raises (script_dir : string) (permissive : bool) (t : tree) :
  (∃ t' e, setup script_dir None permissive t = (t', Throw e))
  ∧ (∀ t1 t2 t3,
       soft_mkdir (path_join script_dir ["results"]) t = (t1, Return tt) →
       soft_mkdir (path_join script_dir ["results/logs"]) t1 = (t2, Return tt) →
       soft_mkdir (path_join script_dir ["results/saved_models"]) t2
       = (t3, Return tt) →
       setup script_dir None permissive t
       = (t3, Throw (UnboundLocalError "logdir"))).
Proof.
  split.
  - unfold setup. rewrite !St_bind_eq.
    destruct (soft_mkdir (path_join script_dir ["results"]) t)
      as [t1 [[]|e1]]; [|by eexists _, _].
    rewrite !St_bind_eq.
    destruct (soft_mkdir (path_join script_dir ["results/logs"]) t1)
      as [t2 [[]|e2]]; [|by eexists _, _].
    rewrite !St_bind_eq.
    destruct (soft_mkdir (path_join script_dir ["results/saved_models"]) t2)
      as [t3 [[]|e3]]; by eexists _, _.
  - intros t1 t2 t3 H1 H2 H3. unfold setup.
    rewrite !St_bind_eq, H1, !St_bind_eq, H2, !St_bind_eq, H3. done.
Qed.

(** X17.  A permissive [setup] that returned can be repeated: the second
    call finds the five directories, creates nothing, changes nothing and
    returns the same two paths. *)
Theorem setup_permissive_idempotent (script_dir name : string) (t t' : tree)
    (dirs : string * string) :
  posix_mkdir →
  setup script_dir (Some name) true t = (t', Return dirs) →
  setup script_dir (Some name) true t' = (t', Return dirs).
Proof.
  intros Hposix (-> & Hdirs)%setup_permissive_returns; [|done].
  apply Forall_cons in Hdirs as [E1 Hdirs].
  apply Forall_cons in Hdirs as [E2 Hdirs].
  apply Forall_cons in Hdirs as [E3 Hdirs].
  apply Forall_cons in Hdirs as [E4 Hdirs].
  apply Forall_cons in Hdirs as [E5 _].
  unfold setup. rewrite !St_bind_eq, (soft_mkdir_exists _ _ E1).
  rewrite !St_bind_eq, (soft_mkdir_exists _ _ E2).
  rewrite !St_bind_eq, (soft_mkdir_exists _ _ E3).
  cbv zeta. rewrite !St_bind_eq, (soft_mkdir_exists _ _ E4).
  by rewrite (soft_mkdir_exists _ _ E5).
Qed.

(** X18.  After a [setup] that returned for a name, permissive or not, a
    [setup] for the same name that is not permissive refuses to overwrite:
    it raises [FileExistsError] for the log directory and changes
    nothing. *)
Theorem setup_refuses_overwrite (script_dir name : string) (permissive : bool)
    (t t' : tree) (dirs : string * string) :
  posix_mkdir →
  setup script_dir (Some name) permissive t = (t', Return dirs) →
  setup script_dir (Some name) false t'
  = (t', Throw (FileExistsError (path_join script_dir ["results/logs"; name]))).
Proof.
  intros Hposix Hrun.
  assert (Forall (λ p, path_exists p t' = true)
            [path_join script_dir ["results"];
             path_join script_dir ["results/logs"];
             path_join script_dir ["results/saved_models"];
             path_join script_dir ["results/logs"; name]]) as Hdirs.
  { destruct permissive.
    - apply setup_permissive_returns in Hrun as [_ Hdirs]; [|done].
      repeat (apply Forall_cons in Hdirs as [? Hdirs]). repeat constructor; done.
    - revert Hrun. unfold setup. rewrite !St_bind_eq.
      destruct (soft_mkdir (path_join script_dir ["results"]) t)
        as [t1 [[]|]] eqn:H1; [|done].
      rewrite !St_bind_eq.
      destruct (soft_mkdir (path_join script_dir ["results/logs"]) t1)
        as [t2 [[]|]] eqn:H2; [|done].
      rewrite !St_bind_eq.
      destruct (soft_mkdir (path_join script_dir ["results/saved_models"]) t2)
        as [t3 [[]|]] eqn:H3; [|done].
      cbv zeta. rewrite !St_bind_eq.
      destruct (os_mkdir (path_join script_dir ["results/logs"; name]) t3)
        as [t4 [[]|]] eqn:H4; [|done].
      destruct (os_mkdir (path_join script_dir ["results/saved_models"; name]) t4)
        as [t5 [[]|]] eqn:H5; [|done].
      intros [= <- _].
      apply (soft_mkdir_returns _ _ _ Hposix) in H1 as [E1 M1].
      apply (soft_mkdir_returns _ _ _ Hposix) in H2 as [E2 M2].
      apply (soft_mkdir_returns _ _ _ Hposix) in H3 as [E3 M3].
      destruct Hposix as (_ & Hok & _).
      apply Hok in H4 as [E4 M4]. apply Hok in H5 as [E5 M5].
      repeat constructor; auto. }
  apply Forall_cons in Hdirs as [E1 Hdirs].
  apply Forall_cons in Hdirs as [E2 Hdirs].
  apply Forall_cons in Hdirs as [E3 Hdirs].
  apply Forall_cons in Hdirs as [E4 _].
  destruct Hposix as (Hrefuse & _ & _).
  unfold setup. rewrite !St_bind_eq, (soft_mkdir_exists _ _ E1).
  rewrite !St_bind_eq, (soft_mkdir_exists _ _ E2).
  rewrite !St_bind_eq, (soft_mkdir_exists _ _ E3).
  cbv zeta. rewrite !St_bind_eq, (Hrefuse _ _ E4). done.
Qed.

(** X19.  With a name that starts with [/], [os.path.join] drops the
    result directories and both paths are the name itself; a [setup] that
    is not permissive then never returns, its second [os.mkdir] finding
    what the first one made. *)
Theorem setup_absolute_name_raises (script_dir name : string) (t : tree) :
  posix_mkdir → startswith_sep name = true →
  path_join script_dir ["results/logs"; name] = name
  ∧ path_join script_dir ["results/saved_models"; name] = name
  ∧ ∃ t' e, setup script_dir (Some name) false t = (t', Throw e).
Proof.
  intros (Hrefuse & Hok & _) Hname.
  rewrite !path_join_absolute by done. split; [done|]. split; [done|].
  unfold setup. rewrite !path_join_absolute by done. rewrite !St_bind_eq.
  destruct (soft_mkdir (path_join script_dir ["results"]) t)
    as [t1 [[]|e1]]; [|by eexists _, _].
  rewrite !St_bind_eq.
  destruct (soft_mkdir (path_join script_dir ["results/logs"]) t1)
    as [t2 [[]|e2]]; [|by eexists _, _].
  rewrite !St_bind_eq.
  destruct (soft_mkdir (path_join script_dir ["results/saved_models"]) t2)
    as [t3 [[]|e3]]; [|by eexists _, _].
  cbv zeta. rewrite !St_bind_eq.
  destruct (os_mkdir name t3) as [t4 [[]|e4]] eqn:H4; [|by eexists _, _].
  apply Hok in H4 as [E4 _]. rewrite (Hrefuse _ _ E4). by eexists _, _.
Qed.

End directories.

Section dumper_files.
Context {V : Type} (json_dumps : gmap string V → Z → outcome string)
  (refused : string → gmap string string → option error)
  (json_loads : string → outcome (gmap string V)).

(** X20.  A [Dumper] starts from the default parameters and lets the ini
    file override them and the command line override both: a key has the
    value of the command line when it is there, else the one of the ini
    file when it is there, else the default one.  Without the file of
    default parameters the construction raises [FileNotFoundError],
    whatever the other arguments. *)
Theorem Dumper_init_precedence (script_dir : string) (dumping_path_arg ini : option string)
    (argparse : option (gmap string V)) (fs : gmap string string)
    (defaults ini_dic : gmap string V) :
  (load json_loads
     (path_join script_dir ["results/saved_models/inference_default/params.json"])
     fs = Return defaults →
   match ini with
   | Some file => load json_loads (path_join script_dir [".."; file]) fs
                  = Return ini_dic
   | None => ini_dic = ∅
   end →
   ∃ self,
     Dumper_init json_loads script_dir dumping_path_arg ini argparse fs = Return self
     ∧ dumping_path self = dumping_path_arg
     ∧ ∀ key,
         dic self !! key
         = match default ∅ argparse !! key with
           | Some v => Some v
           | None => match ini_dic !! key with
                     | Some v => Some v
                     | None => defaults !! key
                     end
           end)
  ∧ (fs !! path_join script_dir
             ["results/saved_models/inference_default/params.json"] = None →
     Dumper_init json_loads script_dir dumping_path_arg ini argparse fs
     = Throw (FileNotFoundError
                (path_join script_dir
                   ["results/saved_models/inference_default/params.json"]))).
Proof.
  split.
  - intros Hdefaults Hini. unfold Dumper_init. rewrite Hdefaults.
    cbn [mbind outcome_mbind outcome_bind].
    destruct ini as [file|].
    + rewrite Hini. cbn [mbind outcome_mbind outcome_bind]. eexists. split; [done|]. split; [done|].
      intros key. simpl. destruct argparse as [namespace|]; simpl.
      * rewrite !lookup_union.
        by destruct (namespace !! key), (ini_dic !! key), (defaults !! key).
      * rewrite lookup_empty, lookup_union.
        by destruct (ini_dic !! key), (defaults !! key).
    + subst ini_dic. cbn [mbind outcome_mbind outcome_bind].
      eexists. split; [done|]. split; [done|].
      intros key. simpl. rewrite (lookup_empty key).
      destruct argparse as [namespace|]; simpl.
      * rewrite lookup_union.
        by destruct (namespace !! key), (defaults !! key).
      * by rewrite lookup_empty.
  - intros Hmissing. unfold Dumper_init, load. by rewrite Hmissing.
Qed.

(** X21.  What [dump] writes, [load] reads back: after a [dump] that
    returned, so that neither [json.dumps] nor [open] raised, and when
    [json.load] inverts [json.dumps] on the dictionary that was dumped,
    loading the path of the dump returns that dictionary; and the dump
    changed no other file. *)
Theorem dump_then_load (self : @Dumper (gmap string V))
    (dict_to_dump : option (gmap string V)) (dumping_path_arg : option string)
    (fs fs' : gmap string string) (path : string) :
  dump json_dumps refused self dict_to_dump dumping_path_arg fs = (fs', Return tt) →
  (∀ j, json_dumps (default (dic self) dict_to_dump) 4 = Return j →
        json_loads (j +:+ String (Ascii.ascii_of_nat 10) EmptyString)
        = Return (default (dic self) dict_to_dump)) →
  from_option Some (dumping_path self) dumping_path_arg = Some path →
  load json_loads path fs' = Return (default (dic self) dict_to_dump)
  ∧ ∀ other, other ≠ path → fs' !! other = fs !! other.
Proof.
  intros Hdump Hjson Hpath.
  assert (∃ j, json_dumps (default (dic self) dict_to_dump) 4 = Return j
               ∧ fs' = print_to path j fs) as (j & Hj & ->).
  { unfold dump in Hdump.
    destruct dumping_path_arg as [p|], self as [[q|] d], dict_to_dump as [d'|];
      simplify_eq/=;
      match goal with
      | H : context [json_dumps ?d 4] |- _ =>
          destruct (json_dumps d 4) as [j|]; [|done];
          destruct (open_w refused path fs) as [[]|]; [|done];
          exists j; by simplify_eq
      end. }
  unfold print_to. split.
  - unfold load. rewrite lookup_insert_eq. by apply Hjson.
  - intros other Hother. by rewrite lookup_insert_ne.
Qed.

End dumper_files.

(** ** The further properties in the small world *)

Section toy_edges.
#[local] Existing Instance Toy.chemistry.
#[local] Existing Instance Toy.models.

Lemma not_a_mode (mode : string) :
  mode ≠ "logp" → mode ≠ "qed" → mode ≠ "qsar" → mode ≠ "docking" →
  mode ∉ ["logp"; "qed"; "qsar"; "docking"].
Proof.
  intros H1 H2 H3 H4 Hin.
  repeat (apply elem_of_cons in Hin as [Hin|Hin]; [done|]).
  by apply elem_of_nil in Hin.
Qed.

Lemma main_touches_only_its_files_witness :
  main (Toy.args_for "logP" 3) Toy.csv ∅
  = (<["latent_features.txt" :=
         Mat (embed (load_smiles_df (Toy.args_for "logP" 3) Toy.csv))]> ∅,
     Ok tt).
Proof.
  apply (proj2 (main_touches_only_its_files (Toy.args_for "logP" 3) Toy.csv ∅)).
  apply not_a_mode; discriminate.
Defined.

Lemma score_files_all_or_none_witness :
  (∃ e, (main (Toy.args_for "logp" 3) Toy.csv ∅).2 = Raise e)
  ∨ is_Some ((main (Toy.args_for "logp" 3) Toy.csv ∅).1 !! "targets_logp.txt").
Proof.
  destruct (score_files_all_or_none (Toy.args_for "logp" 3) Toy.csv ∅ logP
              "targets_logp.txt" "logP_values.txt"
              (or_introl (conj eq_refl (conj eq_refl (conj eq_refl eq_refl)))))
    as [(e & _ & Hrun)|(sc & fs' & _ & Hrun & Htargets & _)].
  - left. exists e. rewrite Hrun. reflexivity.
  - right. rewrite Hrun. exact Htargets.
Defined.

Lemma scoring_needs_label_0_witness :
  (main (Toy.args_for "logp" 3) [(1%Z, "C"); (2%Z, "CC")] ∅).2
  = Raise (KeyError 0).
Proof.
  rewrite (proj1 (scoring_needs_label_0 (Toy.args_for "logp" 3)
                    [(1%Z, "C"); (2%Z, "CC")] ∅ (or_introl eq_refl)
                    ltac:(discriminate))).
  - reflexivity.
  - repeat constructor; discriminate.
Defined.

Lemma scores_follow_labels_witness :
  score_loop logP Toy.csv
  = score_loop logP [(2%Z, "CCC"); (1%Z, "CC"); (0%Z, "C")].
Proof.
  apply (scores_follow_labels logP "targets_logp.txt" "logP_values.txt"
           Toy.csv [(2%Z, "CCC"); (1%Z, "CC"); (0%Z, "C")] ∅).
  symmetry. apply (reverse_Permutation Toy.csv).
Defined.

Lemma empty_table_witness :
  main (Toy.args_for "qsar" 3) [] ∅
  = (<["latent_features.txt" := Mat (embed [])]> ∅,
     Raise (ValueError "need at least one array to concatenate")).
Proof.
  apply (proj2 (empty_table (Toy.args_for "qsar" 3) [] ∅ eq_refl)).
  reflexivity.
Defined.

Lemma var_1_3 : NP.var [Fin 1; Fin 3] = Fin 1.
Proof.
  change [Fin 1; Fin 3] with (Fin <$> [1; 3]%R).
  rewrite var_Fin by done. f_equal. unfold Rvar, Rmean. simpl. field.
Qed.

Lemma normalized_neg_witness :
  normalized (NP.neg <$> [Fin 1; Fin 3]) = NP.neg <$> normalized [Fin 1; Fin 3].
Proof. apply (normalized_neg [Fin 1; Fin 3] 1 var_1_3). apply R1_neq_R0. Defined.

End toy_edges.

Section toy_utilities.
#[local] Existing Instance Toy.chemistry.
#[local] Existing Instance ToyOS.directories.

Lemma i2s_KeyError_witness :
  i2s [0%Z; 5%Z; 1%Z] (<[0%Z := "C"]> (<[1%Z := "N"]> ∅))
  = Throw (Builtin (KeyError 5)).
Proof.
  apply (proj2 (i2s_KeyError (<[0%Z := "C"]> (<[1%Z := "N"]> ∅))
                  [0%Z; 5%Z; 1%Z]) [0%Z] 5%Z [1%Z]).
  - reflexivity.
  - repeat constructor. exists "C". reflexivity.
  - reflexivity.
Defined.

Lemma i2s_length_witness : String.length "CNC" = 3%nat.
Proof.
  apply (i2s_length (<[0%Z := "C"]> (<[1%Z := "N"]> ∅)) [0%Z; 1%Z; 0%Z] "CNC").
  - intros idx c Hc.
    apply lookup_insert_Some in Hc as [[_ <-]|[_ Hc]]; [reflexivity|].
    apply lookup_insert_Some in Hc as [[_ <-]|[_ Hc]]; [reflexivity|].
    rewrite lookup_empty in Hc. discriminate.
  - reflexivity.
Defined.

Lemma frac_id_counts_leading_rows_witness :
  log_smiles_from_indices (Some [[0%Z]; [1%Z]; [0%Z]]) [[1%Z]; [1%Z]; [0%Z]]
    (<[0%Z := "C"]> (<[1%Z := "N"]> ∅))
  = Return ({| input_column := Some ["C"; "N"; "C"];
               output_column := ["N"; "N"; "C"] |},
            Fin (INR 3 / INR 3), Fin (INR 0 / INR 3)).
Proof.
  apply (proj1 (frac_id_counts_leading_rows [[0%Z]; [1%Z]; [0%Z]]
                  [[1%Z]; [1%Z]; [0%Z]] (<[0%Z := "C"]> (<[1%Z := "N"]> ∅))
                  ["C"; "N"; "C"] ["N"; "N"; "C"]
                  ltac:(repeat constructor) ltac:(repeat constructor)
                  eq_refl ltac:(discriminate))).
Defined.

Lemma sampled_smiles_are_valid_witness :
  log_smiles_from_indices None [[0%Z]; [2%Z]; [0%Z; 0%Z]]
    (<[0%Z := "C"]> (<[2%Z := "?"]> ∅))
  = Return ({| input_column := None; output_column := ["C"; "CC"] |},
            Fin (INR 2 / INR 3), Fin 0).
Proof.
  destruct (sampled_smiles_are_valid [[0%Z]; [2%Z]; [0%Z; 0%Z]]
              (<[0%Z := "C"]> (<[2%Z := "?"]> ∅)) ["C"; "?"; "CC"]
              ltac:(repeat constructor) ltac:(discriminate))
    as (kept & -> & Hrun & _).
  exact Hrun.
Defined.

Lemma toy_posix_mkdir : posix_mkdir.
Proof.
  split; [|split].
  - intros p t Hp. simpl. unfold ToyOS.mkdir. simpl in Hp. by rewrite Hp.
  - intros p t t'. simpl. unfold ToyOS.mkdir.
    case_bool_decide as Hp; [done|]. intros [= <-]. split.
    + apply bool_decide_eq_true. by left.
    + intros q Hq%bool_decide_eq_true. apply bool_decide_eq_true. by right.
  - intros p t t' e. simpl. unfold ToyOS.mkdir.
    case_bool_decide; [by intros [= <- _]|done].
Qed.

Lemma setup_without_name_raises_witness :
  ∃ t', @setup ToyOS.directories "/repo" None true []
        = (t', Throw (UnboundLocalError "logdir")).
Proof.
  eexists.
  eapply (proj2 (@setup_without_name_raises ToyOS.directories "/repo" true []));
    vm_compute; reflexivity.
Defined.

Lemma setup_permissive_idempotent_witness :
  @setup ToyOS.directories "/repo" (Some "run1") true
    (@setup ToyOS.directories "/repo" (Some "run1") true []).1
  = ((@setup ToyOS.directories "/repo" (Some "run1") true []).1,
     Return ("/repo/results/logs/run1", "/repo/results/saved_models/run1")).
Proof.
  apply (@setup_permissive_idempotent ToyOS.directories "/repo" "run1" [] _ _
           toy_posix_mkdir).
  vm_compute. reflexivity.
Defined.

Lemma setup_refuses_overwrite_witness :
  @setup ToyOS.directories "/repo" (Some "run1") false
    (@setup ToyOS.directories "/repo" (Some "run1") false []).1
  = ((@setup ToyOS.directories "/repo" (Some "run1") false []).1,
     Throw (FileExistsError "/repo/results/logs/run1")).
Proof.
  apply (@setup_refuses_overwrite ToyOS.directories "/repo" "run1" false [] _
           ("/repo/results/logs/run1", "/repo/results/saved_models/run1")
           toy_posix_mkdir).
  vm_compute. reflexivity.
Defined.

Lemma setup_absolute_name_raises_witness :
  ∃ t' e, @setup ToyOS.directories "/repo" (Some "/tmp/run1") false []
          = (t', Throw e).
Proof.
  apply (@setup_absolute_name_raises ToyOS.directories "/repo" "/tmp/run1" []
           toy_posix_mkdir eq_refl).
Defined.

Lemma Dumper_init_precedence_witness :
  ∃ self,
    Dumper_init (λ text, Return ({[text := text]} : gmap string string))
      "/repo" None (Some "ini") (Some {["lr" := "cli"]})
      (<["/repo/results/saved_models/inference_default/params.json" := "lr"]>
         (<["/repo/../ini" := "lr"]> ∅))
    = Return self
    ∧ dic self !! "lr" = Some "cli".
Proof.
  destruct (proj1 (Dumper_init_precedence
                     (λ text, Return ({[text := text]} : gmap string string))
                     "/repo" None (Some "ini") (Some {["lr" := "cli"]})
                     (<["/repo/results/saved_models/inference_default/params.json"
                          := "lr"]> (<["/repo/../ini" := "lr"]> ∅))
                     {["lr" := "lr"]} {["lr" := "lr"]}))
    as (self & Hrun & _ & Hkeys).
  - unfold load.
    change (path_join "/repo"
              ["results/saved_models/inference_default/params.json"])
      with "/repo/results/saved_models/inference_default/params.json".
    rewrite lookup_insert_eq. reflexivity.
  - unfold load.
    change (path_join "/repo" [".."; "ini"]) with "/repo/../ini".
    rewrite lookup_insert_ne by discriminate.
    rewrite lookup_insert_eq. reflexivity.
  - exists self. split; [exact Hrun|]. rewrite Hkeys. simpl.
    rewrite lookup_singleton_eq. reflexivity.
Defined.

Lemma dump_then_load_witness :
  load (λ _, Return ({["lr" := "0.1"]} : gmap string string)) "params.json"
    (<["params.json" := "{lr: 0.1}" +:+ String (Ascii.ascii_of_nat 10) EmptyString]> ∅)
  = Return {["lr" := "0.1"]}.
Proof.
  exact (proj1 (dump_then_load (λ _ _, Return "{lr: 0.1}") (λ _ _, None)
                  (λ _, Return ({["lr" := "0.1"]} : gmap string string))
                  {| dumping_path := Some "params.json";
                     dic := ({["lr" := "0.1"]} : gmap string string) |}
                  None None ∅ _ "params.json" eq_refl (λ _ _, eq_refl) eq_refl)).
Defined.

End toy_utilities.

Section reconstruction.
Context `{Chemistry} (argmax_axis1 : list (list (list np_float)) → list (list Z))
  (decoder : string → outcome string).
Implicit Types (idx_to_char : gmap Z string) (ins outs : list string).

Lemma decode_loop (true_idces out_idces : list (list Z)) idx_to_char ins outs
    (n k : nat) :
  Forall2 (λ r s, i2s r idx_to_char = Return s) out_idces outs →
  Forall2 (λ r s, i2s r idx_to_char = Return s) true_idces ins →
  length true_idces = length out_idces →
  (k + n = length out_idces)%nat →
  loop (decode_step true_idces out_idces idx_to_char)
    (take k ins, take k outs) (seq k n)
  = Return (ins, outs).
Proof.
  intros Houts Hins Hrows.
  pose proof (Forall2_length _ _ _ Houts) as Hlo.
  pose proof (Forall2_length _ _ _ Hins) as Hli.
  revert k. induction n as [|n IH]; intros k Hk.
  - simpl. by rewrite !take_ge by lia.
  - change (seq k (S n)) with (k :: seq (S k) n). rewrite loop_cons.
    destruct (lookup_lt_is_Some_2 out_idces k) as [orow Horow]; [lia|].
    destruct (lookup_lt_is_Some_2 true_idces k) as [trow Htrow]; [lia|].
    destruct (Forall2_lookup_l _ _ _ _ _ Houts Horow) as (o & Ho & Hdo).
    destruct (Forall2_lookup_l _ _ _ _ _ Hins Htrow) as (s & Hs & Hds).
    unfold decode_step, row. rewrite Horow, Htrow. simpl.
    rewrite Hdo. simpl. rewrite Hds. simpl.
    rewrite <- (take_S_r ins k s Hs), <- (take_S_r outs k o Ho).
    by apply IH; lia.
Qed.

(** X22.  When the string type is not ['smiles'], [log_reconstruction]
    prints the first three rows and returns [0, 0]; with fewer than three
    rows it raises [IndexError] when it reaches the first row that is not
    there, the rows before it being decoded. *)
Theorem log_reconstruction_needs_three_rows (true_idces : list (list Z))
    (probas : list (list (list np_float))) idx_to_char (string_type : string)
    ins outs :
  string_type ≠ "smiles" →
  length (argmax_axis1 probas) = length probas →
  Forall2 (λ r s, i2s r idx_to_char = Return s) (argmax_axis1 probas) outs →
  Forall2 (λ r s, i2s r idx_to_char = Return s) true_idces ins →
  length true_idces = length probas →
  (∀ s, s ∈ ins ++ outs → ∃ t, decoder s = Return t) →
  ((length probas < 3)%nat →
     log_reconstruction argmax_axis1 decoder true_idces probas idx_to_char
       string_type = Throw (Builtin IndexError))
  ∧ ((3 ≤ length probas)%nat →
     log_reconstruction argmax_axis1 decoder true_idces probas idx_to_char
       string_type = Return Zeros).
Proof.
  intros Htype Hargmax Houts Hins Hrows Hdecoder.
  pose proof (Forall2_length _ _ _ Houts) as Hlo.
  pose proof (Forall2_length _ _ _ Hins) as Hli.
  assert (log_reconstruction argmax_axis1 decoder true_idces probas idx_to_char
            string_type
          = _ ← loop (print_sample decoder ins outs) tt (seq 0 3); Return Zeros)
    as ->.
  { unfold log_reconstruction. cbv zeta.
    pose proof (decode_loop true_idces (argmax_axis1 probas) idx_to_char ins outs
                  (length probas) 0 Houts Hins) as Hloop.
    rewrite !take_0 in Hloop. rewrite Hloop by lia.
    cbn [mbind outcome_mbind outcome_bind fst snd].
    by rewrite bool_decide_eq_false_2. }
  assert (∀ i, (i < length probas)%nat →
            print_sample decoder ins outs tt i = Return tt) as Hprint.
  { intros i Hi.
    destruct (lookup_lt_is_Some_2 ins i) as [a Ha]; [lia|].
    destruct (lookup_lt_is_Some_2 outs i) as [b Hb]; [lia|].
    destruct (Hdecoder a) as [x Hx].
    { apply elem_of_app. left. by eapply list_elem_of_lookup_2. }
    destruct (Hdecoder b) as [y Hy].
    { apply elem_of_app. right. by eapply list_elem_of_lookup_2. }
    unfold print_sample, item. rewrite Ha, Hb. simpl. rewrite Hx. simpl.
    by rewrite Hy. }
  assert (∀ i, (length probas ≤ i)%nat →
            print_sample decoder ins outs tt i = Throw (Builtin IndexError))
    as Hmissing.
  { intros i Hi. unfold print_sample, item.
    by rewrite (lookup_ge_None_2 ins i) by lia. }
  split; intros Hn.
  - change (seq 0 3) with [0; 1; 2]%nat. rewrite !loop_cons.
    destruct (length probas) as [|[|[|n]]] eqn:HN; [| | |lia].
    + by rewrite Hmissing by lia.
    + rewrite Hprint by lia. simpl. by rewrite Hmissing by lia.
    + rewrite Hprint by lia. simpl. rewrite Hprint by lia. simpl.
      by rewrite Hmissing by lia.
  - change (seq 0 3) with [0; 1; 2]%nat. rewrite !loop_cons.
    rewrite Hprint by lia. simpl. rewrite Hprint by lia. simpl.
    by rewrite Hprint by lia.
Qed.

(** X23.  With the string type ['smiles'], [log_reconstruction] returns
    the two columns and the fraction of output strings that parse once
    their trailing line feeds are removed; without rows that fraction is
    [nan], the mean of an empty list, and nothing is raised. *)
Theorem log_reconstruction_frac_valid (true_idces : list (list Z))
    (probas : list (list (list np_float))) idx_to_char ins outs :
  length (argmax_axis1 probas) = length probas →
  Forall2 (λ r s, i2s r idx_to_char = Return s) (argmax_axis1 probas) outs →
  Forall2 (λ r s, i2s r idx_to_char = Return s) true_idces ins →
  length true_idces = length probas →
  log_reconstruction argmax_axis1 decoder true_idces probas idx_to_char "smiles"
  = Return (Frame {| input_column := Some ins; output_column := outs |}
              (match probas with
               | [] => NaN
               | _ :: _ =>
                   Fin (INR (length
                               (filter (λ o, is_Some (MolFromSmiles
                                                        (rstrip_newline o)))
                                  outs))
                        / INR (length probas))
               end)).
Proof.
  intros Hargmax Houts Hins Hrows.
  pose proof (Forall2_length _ _ _ Houts) as Hlo.
  unfold log_reconstruction. cbv zeta.
  pose proof (decode_loop true_idces (argmax_axis1 probas) idx_to_char ins outs
                (length probas) 0 Houts Hins) as Hloop.
  rewrite !take_0 in Hloop. rewrite Hloop by lia.
  cbn [mbind outcome_mbind outcome_bind fst snd].
  rewrite bool_decide_eq_true_2 by done. do 2 f_equal.
  destruct probas as [|block probas].
  - destruct outs; [|simpl in *; lia]. apply div_zero_zero.
  - rewrite mean_validity by (destruct outs; simpl in *; [lia|done]).
    do 3 f_equal. lia.
Qed.

End reconstruction.

Section toy_reconstruction.
#[local] Existing Instance Toy.chemistry.

Lemma log_reconstruction_needs_three_rows_witness :
  log_reconstruction
    (λ probas : list (list (list np_float)), (λ _, [0%Z]) <$> probas)
    (λ s, Return s)
    [[0%Z]; [1%Z]] [[[Fin 1]; [Fin 0]]; [[Fin 1]; [Fin 0]]]
    (<[0%Z := "C"]> (<[1%Z := "N"]> ∅)) "selfies"
  = Throw (Builtin IndexError).
Proof.
  destruct (log_reconstruction_needs_three_rows
              (λ probas : list (list (list np_float)), (λ _, [0%Z]) <$> probas)
              (λ s, Return s)
              [[0%Z]; [1%Z]] [[[Fin 1]; [Fin 0]]; [[Fin 1]; [Fin 0]]]
              (<[0%Z := "C"]> (<[1%Z := "N"]> ∅)) "selfies"
              ["C"; "N"] ["C"; "C"]) as [Hfew _].
  - discriminate.
  - reflexivity.
  - repeat constructor.
  - repeat constructor.
  - reflexivity.
  - intros s _. exists s. reflexivity.
  - apply Hfew. simpl. lia.
Defined.

Lemma log_reconstruction_frac_valid_witness :
  log_reconstruction
    (λ probas : list (list (list np_float)), (λ _, [0%Z]) <$> probas)
    (λ s, Return s)
    [[0%Z]; [1%Z]] [[[Fin 1]; [Fin 0]]; [[Fin 1]; [Fin 0]]]
    (<[0%Z := "C"]> (<[1%Z := "N"]> ∅)) "smiles"
  = Return (Frame {| input_column := Some ["C"; "N"];
                     output_column := ["C"; "C"] |}
              (Fin (INR 2 / INR 2))).
Proof.
  rewrite (log_reconstruction_frac_valid
             (λ probas : list (list (list np_float)), (λ _, [0%Z]) <$> probas)
             (λ s, Return s)
             [[0%Z]; [1%Z]] [[[Fin 1]; [Fin 0]]; [[Fin 1]; [Fin 0]]]
             (<[0%Z := "C"]> (<[1%Z := "N"]> ∅)) ["C"; "N"] ["C"; "C"]).
  - reflexivity.
  - reflexivity.
  - repeat constructor.
  - repeat constructor.
  - reflexivity.
Defined.

End toy_reconstruction.
